(** * pyHeap: a binary heap over a Python list

    Shallow embedding of [Heap.py].  Python integers are [Z]; a Python list
    is an object in a store, addressed by its identity; a method is a
    computation over that store that returns a value, raises, or runs out
    of the fuel that bounds its loops and recursion. *)

From Stdlib Require Import ZArith Lia.
From stdpp Require Import base option list gmap strings pretty sorting.

Local Open Scope Z_scope.

(** ** Python list objects *)

(** Identity of a list object. *)
Definition loc := nat.

(** The object store: every list object and its current elements. *)
Abbreviation store := (gmap nat (list Z)).

Inductive exn : Type :=
| IndexError (msg : string)
| ValueError (msg : string).

Inductive outcome (A : Type) : Type :=
| Ok (a : A) (st : store)
| Raise (e : exn) (st : store)
| OutOfFuel.
Arguments Ok {A} a st.
Arguments Raise {A} e st.
Arguments OutOfFuel {A}.

(** A computation threads the store and may raise. *)
Definition M (A : Type) : Type := store → outcome A.

#[export] Instance M_ret : MRet M := λ A a st, Ok a st.

Definition bind {A B} (m : M A) (k : A → M B) : M B := λ st,
  match m st with
  | Ok a st' => k a st'
  | Raise e st' => Raise e st'
  | OutOfFuel => OutOfFuel
  end.

#[export] Instance M_bind : MBind M := λ A B k m, bind m k.

Notation "'let*' x := m 'in' k" := (bind m (λ x, k))
  (at level 10, x name, m at level 100, k at level 200,
   format "'[v' 'let*'  x  :=  m  'in' '/' k ']'").

Definition raise {A} (e : exn) : M A := λ st, Raise e st.

Definition out_of_fuel {A} : M A := λ _, OutOfFuel.

(** [try: body except ValueError: handler] *)
Definition try_except_ValueError {A} (body handler : M A) : M A := λ st,
  match body st with
  | Raise (ValueError _) st' => handler st'
  | r => r
  end.

(** Short-circuit [a and b] where [a] is a pure test. *)
Definition and_then (a : bool) (b : M bool) : M bool :=
  if a then b else mret false.

(** [for x in xs: body(x)] *)
Fixpoint for_each {A} (xs : list A) (body : A → M unit) : M unit :=
  match xs with
  | [] => mret tt
  | x :: xs' => body x;; for_each xs' body
  end.

(** [range(start, stop, -1)] *)
Definition range_down (start stop : Z) : list Z :=
  (λ k : nat, start - Z.of_nat k) <$> seq 0 (Z.to_nat (start - stop)).

(** Elements of the list object [l]; identities only come from allocation,
    so the default is never observed by the heap. *)
Definition contents (l : loc) (st : store) : list Z := default [] (st !! l).

(** A subscript [i] is valid for [-n <= i < n]; a negative one counts from
    the end. *)
Definition resolve_index (n : nat) (i : Z) : option nat :=
  if (0 <=? i) && (i <? Z.of_nat n) then Some (Z.to_nat i)
  else if (- Z.of_nat n <=? i) && (i <? 0) then Some (Z.to_nat (Z.of_nat n + i))
  else None.

(** First position of [v] in [xs]. *)
Fixpoint find_index (v : Z) (xs : list Z) : option nat :=
  match xs with
  | [] => None
  | x :: xs' => if x =? v then Some 0%nat else S <$> find_index v xs'
  end.

(** [len(l)] *)
Definition list_len (l : loc) : M Z := λ st,
  Ok (Z.of_nat (length (contents l st))) st.

(** [l[i]] *)
Definition list_getitem (l : loc) (i : Z) : M Z := λ st,
  match resolve_index (length (contents l st)) i ≫= (contents l st !!.) with
  | Some x => Ok x st
  | None => Raise (IndexError "list index out of range") st
  end.

(** [l[i] = v] *)
Definition list_setitem (l : loc) (i v : Z) : M unit := λ st,
  match resolve_index (length (contents l st)) i with
  | Some k => Ok tt (<[l := <[k := v]> (contents l st)]> st)
  | None => Raise (IndexError "list assignment index out of range") st
  end.

(** [l.append(v)] *)
Definition list_append (l : loc) (v : Z) : M unit := λ st,
  Ok tt (<[l := contents l st ++ [v]]> st).

(** [l.pop()] *)
Definition list_pop (l : loc) : M Z := λ st,
  match last (contents l st) with
  | Some x =>
      Ok x (<[l := take (length (contents l st) - 1)%nat (contents l st)]> st)
  | None => Raise (IndexError "pop from empty list") st
  end.

(** [l.index(v)] *)
Definition list_index (l : loc) (v : Z) : M Z := λ st,
  match find_index v (contents l st) with
  | Some k => Ok (Z.of_nat k) st
  | None => Raise (ValueError (pretty v +:+ " is not in list")) st
  end.

(** [l.clear()] *)
Definition list_clear (l : loc) : M unit := λ st, Ok tt (<[l := []]> st).

(** [list(l)] and [l.copy()]: a new list object with the same elements. *)
Definition list_copy (l : loc) : M loc := λ st,
  let l' := fresh (dom st) in Ok l' (<[l' := contents l st]> st).

(** ** The class [Heap] *)

(** The two attributes of an instance; neither is rebound after
    [__init__]. *)
Record Heap : Type := { _arr : loc; _is_min_heap : bool }.

Definition _left (index : Z) : Z := index * 2 + 1.

Definition _right (index : Z) : Z := index * 2 + 2.

Definition _parent (index : Z) : Z := (index - 1) `div` 2.

Definition _swap (self : Heap) (a b : Z) : M unit :=
  let* x := list_getitem (_arr self) b in
  let* y := list_getitem (_arr self) a in
  list_setitem (_arr self) a x;;
  list_setitem (_arr self) b y.

Definition _compare (self : Heap) (a b : Z) : M bool :=
  if _is_min_heap self
  then let* x := list_getitem (_arr self) a in
       let* y := list_getitem (_arr self) b in
       mret (x <? y)
  else let* x := list_getitem (_arr self) a in
       let* y := list_getitem (_arr self) b in
       mret (x >? y).

Definition size (self : Heap) : M Z := list_len (_arr self).

Definition is_empty (self : Heap) : M bool :=
  let* n := list_len (_arr self) in mret (n =? 0).

(** [heapify_down] calls itself; [fuel] bounds the depth of the calls (the
    interpreter's own limit on that depth is not modelled). *)
Fixpoint heapify_down_fuel (fuel : nat) (self : Heap) (index size : Z)
  : M unit :=
  match fuel with
  | O => out_of_fuel
  | S fuel' =>
      let cumulative := index in
      let left := _left index in
      let right := _right index in
      let* c := and_then (left <? size) (_compare self left cumulative) in
      let cumulative := if c then left else cumulative in
      let* c := and_then (right <? size) (_compare self right cumulative) in
      let cumulative := if c then right else cumulative in
      if negb (cumulative =? index)
      then _swap self index cumulative;;
           heapify_down_fuel fuel' self cumulative size
      else mret tt
  end.

(** Depth that no call of [heapify_down] on the list [arr] exceeds. *)
Definition recursion_bound (arr : list Z) : nat := S (S (length arr)).

Definition heapify_down (self : Heap) (index size : Z) : M unit := λ st,
  heapify_down_fuel (recursion_bound (contents (_arr self) st))
    self index size st.

(** The [while] loop of [heapify_up]; [fuel] bounds its iterations. *)
Fixpoint heapify_up_fuel (fuel : nat) (self : Heap) (index : Z) : M unit :=
  match fuel with
  | O => out_of_fuel
  | S fuel' =>
      if index >? 0
      then let parent := _parent index in
           let* c := _compare self index parent in
           if c
           then _swap self index parent;;
                heapify_up_fuel fuel' self parent
           else mret tt
      else mret tt
  end.

Definition heapify_up (self : Heap) (index : Z) : M unit :=
  heapify_up_fuel (S (Z.to_nat index)) self index.

Definition build_heap (self : Heap) : M unit :=
  let* n := size self in
  let start_index := n `div` 2 - 1 in
  for_each (range_down start_index (-1))
    (λ i, let* n := size self in heapify_down self i n).

(** The constructor: [self._arr = list(arr)], the flag, [build_heap]. *)
Definition __init__ (arr : loc) (isMinHeap : bool) : M Heap :=
  let* l := list_copy arr in
  let self := {| _arr := l; _is_min_heap := isMinHeap |} in
  build_heap self;;
  mret self.

(** Truth value of the attribute [self.m] read without calling it: a bound
    method object, which Python takes for true. *)
Definition bound_method_truth {A} (m : Heap → M A) (self : Heap) : bool :=
  true.

Definition peek (self : Heap) : M (option Z) :=
  if bound_method_truth is_empty self
  then mret None
  else let* x := list_getitem (_arr self) 0 in mret (Some x).

Definition push (self : Heap) (value : Z) : M unit :=
  list_append (_arr self) value;;
  let* n := list_len (_arr self) in
  heapify_up self (n - 1).

Definition pop (self : Heap) : M Z :=
  let* e := is_empty self in
  if e then raise (IndexError "Pop from empty heap")
  else
    let* root := list_getitem (_arr self) 0 in
    let* n := size self in
    let lastIndex := n - 1 in
    _swap self 0 lastIndex;;
    list_pop (_arr self);;
    let* e := is_empty self in
    (if negb e then let* n := size self in heapify_down self 0 n else mret tt);;
    mret root.

Definition push_pop (self : Heap) (value : Z) : M Z :=
  let* e := is_empty self in
  if e then push self value;; mret value
  else
    let* root := list_getitem (_arr self) 0 in
    if (_is_min_heap self && (value >? root))
       || negb (_is_min_heap self && (value <? root))
    then list_setitem (_arr self) 0 value;;
         let* n := size self in
         heapify_down self 0 n;;
         mret root
    else mret value.

Definition replace (self : Heap) (oldValue newValue : Z) : M unit :=
  let* e := is_empty self in
  if e then raise (ValueError "Heap is empty")
  else
    let* index := try_except_ValueError
               (list_index (_arr self) oldValue)
               (raise (ValueError (pretty oldValue +:+ " not found in heap"))) in
    list_setitem (_arr self) index newValue;;
    let parent := _parent index in
    let* c := and_then (index >? 0) (_compare self index parent) in
    if c then heapify_up self index
    else let* n := size self in heapify_down self index n.

Definition clear (self : Heap) : M unit := list_clear (_arr self).

Definition items (self : Heap) : M loc := list_copy (_arr self).

(** ** Callers *)

(** A caller that owns the list [xs] and constructs a heap from it. *)
Definition caller_list : loc := 0%nat.

Definition Heap_of (xs : list Z) (isMinHeap : bool) : outcome Heap :=
  __init__ caller_list isMinHeap {[ caller_list := xs ]}.

(** [out = []; while not heap.is_empty(): out.append(heap.pop())] *)
Fixpoint pop_all_fuel (fuel : nat) (self : Heap) : M (list Z) :=
  match fuel with
  | O => out_of_fuel
  | S fuel' =>
      let* e := is_empty self in
      if e then mret []
      else let* x := pop self in
           let* xs := pop_all_fuel fuel' self in
           mret (x :: xs)
  end.

Definition pop_all (self : Heap) : M (list Z) := λ st,
  pop_all_fuel (S (length (contents (_arr self) st))) self st.

(** The public operations that change a heap. *)
Inductive op : Type :=
| OpBuild
| OpPush (value : Z)
| OpPop
| OpPushPop (value : Z)
| OpReplace (oldValue newValue : Z)
| OpClear.

Definition run_op (self : Heap) (o : op) : M unit :=
  match o with
  | OpBuild => build_heap self
  | OpPush v => push self v
  | OpPop => pop self;; mret tt
  | OpPushPop v => push_pop self v;; mret tt
  | OpReplace a b => replace self a b
  | OpClear => clear self
  end.

(** What a holder of a list object can do to it. *)
Inductive list_mutation : Type :=
| MutSetitem (i v : Z)
| MutAppend (v : Z)
| MutPop
| MutClear.

Definition mutate (l : loc) (m : list_mutation) : M unit :=
  match m with
  | MutSetitem i v => list_setitem l i v
  | MutAppend v => list_append l v
  | MutPop => list_pop l;; mret tt
  | MutClear => list_clear l
  end.

(** The store a call leaves behind, whether it returned or raised. *)
Definition final_store {A} (r : outcome A) : option store :=
  match r with
  | Ok _ st | Raise _ st => Some st
  | OutOfFuel => None
  end.

(** ** Specification vocabulary *)

(** [order x y]: [x] has priority over or equal priority to [y]. *)
Definition order (is_min : bool) (x y : Z) : Prop :=
  if is_min then x ≤ y else y ≤ x.

(** What [_compare] computes on two elements: strictly higher priority. *)
Definition prior (is_min : bool) (x y : Z) : bool :=
  if is_min then x <? y else x >? y.

(** The heap property over the whole list. *)
Definition heap_inv (is_min : bool) (arr : list Z) : Prop :=
  ∀ (i c : nat) (x y : Z),
    (c = 2 * i + 1 ∨ c = 2 * i + 2)%nat →
    arr !! i = Some x → arr !! c = Some y → order is_min x y.

(** The heap property, checked edge by edge. *)
Definition heap_invb (is_min : bool) (arr : list Z) : bool :=
  forallb
    (λ c : nat,
       match arr !! ((c - 1) / 2)%nat, arr !! c with
       | Some x, Some y => negb (prior is_min y x)
       | _, _ => true
       end)
    (seq 1 (length arr - 1)).

(** A call changes no list object other than [l], and keeps [l] alive. *)
Definition touches_only (l : loc) (st st' : store) : Prop :=
  (∀ l', l' ≠ l → st' !! l' = st !! l') ∧
  (is_Some (st !! l) → is_Some (st' !! l)).

(** Parent position, on naturals. *)
Definition up (c : nat) : nat := ((c - 1) / 2)%nat.

(** Every parent-child pair below [n] that [P] selects is in order. *)
Definition edges (is_min : bool) (arr : list Z) (n : nat)
    (P : nat → nat → Prop) : Prop :=
  ∀ (c : nat) (x y : Z),
    (0 < c < n)%nat → P (up c) c →
    arr !! up c = Some x → arr !! c = Some y → order is_min x y.

(** The element at [i] has priority over every child of [j] below [n]. *)
Definition covers (is_min : bool) (arr : list Z) (n i j : nat) : Prop :=
  ∀ (c : nat) (x y : Z),
    (0 < c < n)%nat → up c = j →
    arr !! i = Some x → arr !! c = Some y → order is_min x y.

(** Exchange of two positions. *)
Definition exchange (arr : list Z) (a b : nat) : list Z :=
  match arr !! a, arr !! b with
  | Some x, Some y => <[b := x]> (<[a := y]> arr)
  | _, _ => arr
  end.

(** The test of [push_pop] that sends [value] into the heap in place of the
    root. *)
Definition push_pop_test (is_min : bool) (value root : Z) : bool :=
  (is_min && (value >? root)) || negb (is_min && (value <? root)).

(** Calls that [heapify_down] can still make from [index] on a list of
    [len] elements: a non-negative index moves up and stays below [len]; a
    negative one moves down and stays above [-len], except [-1], whose
    right child is [0]. *)
Definition calls_left (len : nat) (index : Z) : nat :=
  if 0 <=? index then S (Z.to_nat (Z.of_nat len - index))
  else if index =? -1 then S (S len)
  else S (Z.to_nat (Z.of_nat len + index)).

(** Occurrences of a value. *)
Definition count (v : Z) (xs : list Z) : nat :=
  length (filter (λ x, x = v) xs).

(** ** The remaining methods *)

Definition __len__ (self : Heap) : M Z := size self.

Definition __bool__ (self : Heap) : M bool :=
  let* e := is_empty self in mret (negb e).












(** ** More vocabulary *)

(** A subscript that a list of [n] elements accepts. *)
Definition valid_index (n : nat) (i : Z) : Prop :=
  - Z.of_nat n ≤ i < Z.of_nat n.

(** The position a valid subscript stands for. *)
Definition position (n : nat) (i : Z) : nat :=
  if i <? 0 then Z.to_nat (Z.of_nat n + i) else Z.to_nat i.





(** * Proofs *)

(** Goals about which outcome a call has, once the call is evaluated. *)
Ltac outcome_cases :=
  repeat match goal with
    | |- _ ∧ _ => split
    | |- _ ↔ _ => split
    | |- ∀ _, _ => intro
    | H : ∃ _, _ |- _ => destruct H
    | H : _ ∧ _ |- _ => destruct H
    | H : Ok _ _ = Ok _ _ |- _ => injection H as ? ?
    | H : Raise _ _ = Raise _ _ |- _ => injection H as ? ?
    | H : ValueError _ = ValueError _ |- _ => injection H as ?
    | H : Ok _ _ = Raise _ _ |- _ => discriminate H
    | H : Raise _ _ = Ok _ _ |- _ => discriminate H
    end;
  subst; eauto; done.

(** ** The monad and the list primitives *)

Lemma bind_Ok {A B} (m : M A) (k : A → M B) st a st' :
  m st = Ok a st' → bind m k st = k a st'.
Proof. intros H. unfold bind. by rewrite H. Qed.

Lemma bind_Raise {A B} (m : M A) (k : A → M B) st e st' :
  m st = Raise e st' → bind m k st = Raise e st'.
Proof. intros H. unfold bind. by rewrite H. Qed.

Lemma then_Ok {A B} (m : M A) (k : M B) st a st' :
  m st = Ok a st' → (m;; k) st = k st'.
Proof. intros H. unfold mbind, M_bind, bind. by rewrite H. Qed.

Lemma then_Raise {A B} (m : M A) (k : M B) st e st' :
  m st = Raise e st' → (m;; k) st = Raise e st'.
Proof. intros H. unfold mbind, M_bind, bind. by rewrite H. Qed.

Lemma contents_insert l xs (st : store) : contents l (<[l := xs]> st) = xs.
Proof. unfold contents. by rewrite lookup_insert_eq. Qed.


Lemma contents_lookup l xs (st : store) : st !! l = Some xs → contents l st = xs.
Proof. intros H. unfold contents. by rewrite H. Qed.

Lemma touches_only_refl l (st : store) : touches_only l st st.
Proof. by split. Qed.

Lemma touches_only_trans l (st1 st2 st3 : store) :
  touches_only l st1 st2 → touches_only l st2 st3 → touches_only l st1 st3.
Proof.
  intros [H1 A1] [H2 A2]. split.
  - intros l' Hl. rewrite H2, H1; auto.
  - auto.
Qed.

Lemma touches_only_insert l xs (st : store) : touches_only l st (<[l := xs]> st).
Proof.
  split.
  - intros l' Hl. by rewrite lookup_insert_ne.
  - intros _. rewrite lookup_insert_eq. eauto.
Qed.

Lemma resolve_index_nat (n k : nat) :
  (k < n)%nat → resolve_index n (Z.of_nat k) = Some k.
Proof.
  intros Hk. unfold resolve_index.
  destruct (Z.leb_spec 0 (Z.of_nat k)); [|lia].
  destruct (Z.ltb_spec (Z.of_nat k) (Z.of_nat n)); [|lia].
  simpl. by rewrite Nat2Z.id.
Qed.

Lemma resolve_index_Some (n : nat) (i : Z) (k : nat) :
  resolve_index n i = Some k →
  (k < n)%nat ∧ - Z.of_nat n ≤ i < Z.of_nat n ∧
  (0 ≤ i → Z.of_nat k = i) ∧ (i < 0 → Z.of_nat k = Z.of_nat n + i).
Proof.
  unfold resolve_index.
  destruct (Z.leb_spec 0 i); destruct (Z.ltb_spec i (Z.of_nat n)); simpl;
    destruct (Z.leb_spec (- Z.of_nat n) i); destruct (Z.ltb_spec i 0); simpl;
    intros; simplify_eq; lia.
Qed.

Lemma getitem_nat l (st : store) (k : nat) x :
  contents l st !! k = Some x → list_getitem l (Z.of_nat k) st = Ok x st.
Proof.
  intros H. unfold list_getitem.
  rewrite resolve_index_nat by (by eapply lookup_lt_Some).
  simpl. by rewrite H.
Qed.

Lemma setitem_nat l (st : store) (k : nat) v :
  (k < length (contents l st))%nat →
  list_setitem l (Z.of_nat k) v st
  = Ok tt (<[l := <[k := v]> (contents l st)]> st).
Proof. intros H. unfold list_setitem. by rewrite resolve_index_nat. Qed.

Lemma getitem_inv l i (st : store) x st' :
  list_getitem l i st = Ok x st' →
  st' = st ∧ - Z.of_nat (length (contents l st)) ≤ i < Z.of_nat (length (contents l st)).
Proof.
  unfold list_getitem.
  destruct (resolve_index _ i) as [k|] eqn:E; simpl; [|done].
  destruct (contents l st !! k); [|done].
  intros; simplify_eq. split; [done|]. apply resolve_index_Some in E. lia.
Qed.

Lemma getitem_fuel l i (st : store) : list_getitem l i st ≠ OutOfFuel.
Proof.
  unfold list_getitem. by destruct (resolve_index _ i ≫= _).
Qed.

Lemma setitem_inv l i v (st : store) st' :
  list_setitem l i v st = Ok tt st' →
  ∃ k, st' = <[l := <[k := v]> (contents l st)]> st.
Proof.
  unfold list_setitem. destruct (resolve_index _ i) as [k|]; [|done].
  intros; simplify_eq. eauto.
Qed.

Lemma setitem_fuel l i v (st : store) : list_setitem l i v st ≠ OutOfFuel.
Proof. unfold list_setitem. by destruct (resolve_index _ i). Qed.



(** ** Exchange of two positions *)

Lemma exchange_length arr a b : length (exchange arr a b) = length arr.
Proof.
  unfold exchange. destruct (arr !! a), (arr !! b); try done.
  by rewrite !length_insert.
Qed.

Lemma exchange_lookup arr a b x y :
  arr !! a = Some x → arr !! b = Some y →
  exchange arr a b !! a = Some y ∧ exchange arr a b !! b = Some x ∧
  ∀ j, j ≠ a → j ≠ b → exchange arr a b !! j = arr !! j.
Proof.
  intros Ha Hb. unfold exchange. rewrite Ha, Hb.
  assert (a < length arr)%nat by (by eapply lookup_lt_Some).
  assert (b < length arr)%nat by (by eapply lookup_lt_Some).
  split; [|split].
  - destruct (decide (a = b)) as [->|].
    + rewrite list_lookup_insert_eq by (by rewrite length_insert). congruence.
    + rewrite list_lookup_insert_ne by done. by rewrite list_lookup_insert_eq.
  - rewrite list_lookup_insert_eq by (by rewrite length_insert). done.
  - intros j ??. by rewrite !list_lookup_insert_ne.
Qed.

Lemma insert_Permutation_cons (arr : list Z) j y a :
  arr !! j = Some y → y :: <[j := a]> arr ≡ₚ a :: arr.
Proof.
  revert j. induction arr as [|z arr IH]; intros [|j] H; simplify_eq/=.
  - apply perm_swap.
  - rewrite perm_swap. rewrite (IH j H). apply perm_swap.
Qed.

Lemma exchange_Permutation arr a b : exchange arr a b ≡ₚ arr.
Proof.
  unfold exchange.
  destruct (arr !! a) as [x|] eqn:Ha; [|done].
  destruct (arr !! b) as [y|] eqn:Hb; [|done].
  destruct (decide (a = b)) as [->|Hne].
  - simplify_eq. rewrite list_insert_insert_eq. by rewrite list_insert_id.
  - apply (inj (cons y)).
    rewrite (insert_Permutation_cons (<[a := y]> arr) b y x)
      by (by rewrite list_lookup_insert_ne).
    by apply insert_Permutation_cons.
Qed.

(** ** [_compare] and [_swap] *)

Lemma compare_nat self (st : store) (a b : nat) x y :
  contents (_arr self) st !! a = Some x →
  contents (_arr self) st !! b = Some y →
  _compare self (Z.of_nat a) (Z.of_nat b) st
  = Ok (prior (_is_min_heap self) x y) st.
Proof.
  intros Ha Hb. unfold _compare, prior.
  destruct (_is_min_heap self);
    rewrite (bind_Ok _ _ _ _ _ (getitem_nat _ _ _ _ Ha));
    rewrite (bind_Ok _ _ _ _ _ (getitem_nat _ _ _ _ Hb)); reflexivity.
Qed.

Lemma swap_nat self (st : store) (a b : nat) x y :
  contents (_arr self) st !! a = Some x →
  contents (_arr self) st !! b = Some y →
  _swap self (Z.of_nat a) (Z.of_nat b) st
  = Ok tt (<[_arr self := exchange (contents (_arr self) st) a b]> st).
Proof.
  intros Ha Hb. unfold _swap.
  rewrite (bind_Ok _ _ _ _ _ (getitem_nat _ _ _ _ Hb)).
  rewrite (bind_Ok _ _ _ _ _ (getitem_nat _ _ _ _ Ha)).
  erewrite then_Ok by (apply setitem_nat; by eapply lookup_lt_Some).
  rewrite setitem_nat.
  - rewrite contents_insert, insert_insert_eq. unfold exchange. by rewrite Ha, Hb.
  - rewrite contents_insert, length_insert. by eapply lookup_lt_Some.
Qed.


(** ** Order and positions *)

Lemma order_refl b x : order b x x.
Proof. unfold order. destruct b; lia. Qed.

Lemma order_trans b x y z : order b x y → order b y z → order b x z.
Proof. unfold order. destruct b; lia. Qed.

Lemma prior_true b x y : prior b x y = true → order b x y ∧ x ≠ y.
Proof. unfold prior, order. destruct b; lia. Qed.

Lemma prior_false b x y : prior b x y = false → order b y x.
Proof. unfold prior, order. destruct b; lia. Qed.

Lemma up_left i : up (2 * i + 1) = i.
Proof. unfold up. replace (2 * i + 1 - 1)%nat with (i * 2)%nat by lia. by rewrite Nat.div_mul. Qed.

Lemma up_right i : up (2 * i + 2) = i.
Proof.
  unfold up. replace (2 * i + 2 - 1)%nat with (1 + i * 2)%nat by lia.
  by rewrite Nat.div_add.
Qed.

Lemma up_child c : (0 < c)%nat → (c = 2 * up c + 1 ∨ c = 2 * up c + 2)%nat.
Proof.
  intros Hc. unfold up.
  pose proof (Nat.div_mod_eq (c - 1) 2) as E.
  pose proof (Nat.mod_upper_bound (c - 1) 2). lia.
Qed.

Lemma up_lt c : (0 < c)%nat → (up c < c)%nat.
Proof. intros Hc. pose proof (up_child c Hc). lia. Qed.

Lemma left_nat (i : nat) : _left (Z.of_nat i) = Z.of_nat (2 * i + 1).
Proof. unfold _left. lia. Qed.

Lemma right_nat (i : nat) : _right (Z.of_nat i) = Z.of_nat (2 * i + 2).
Proof. unfold _right. lia. Qed.

Lemma parent_nat (c : nat) : (0 < c)%nat → _parent (Z.of_nat c) = Z.of_nat (up c).
Proof.
  intros Hc. unfold _parent, up.
  rewrite Nat2Z.inj_div. f_equal. lia.
Qed.

Lemma ltb_nat (a b : nat) : (Z.of_nat a <? Z.of_nat b) = bool_decide (a < b)%nat.
Proof.
  destruct (Z.ltb_spec (Z.of_nat a) (Z.of_nat b)); case_bool_decide; lia || done.
Qed.

Lemma eqb_nat (a b : nat) : (Z.of_nat a =? Z.of_nat b) = bool_decide (a = b).
Proof.
  destruct (Z.eqb_spec (Z.of_nat a) (Z.of_nat b)); case_bool_decide; lia || done.
Qed.

Lemma gtb_nat (a : nat) : (Z.of_nat a >? 0) = bool_decide (0 < a)%nat.
Proof.
  rewrite Z.gtb_ltb. destruct (Z.ltb_spec 0 (Z.of_nat a)); case_bool_decide; lia || done.
Qed.

Lemma heap_inv_edges b arr :
  heap_inv b arr ↔ edges b arr (length arr) (λ _ _, True).
Proof.
  split.
  - intros H c x y Hc _ Hx Hy.
    apply (H (up c) c x y); [apply up_child; lia|done|done].
  - intros H i c x y Hc Hx Hy.
    assert (up c = i) as Hu by (destruct Hc; subst; [apply up_left|apply up_right]).
    apply (H c x y); rewrite ?Hu; try done.
    apply lookup_lt_Some in Hy. lia.
Qed.

Lemma edges_impl b arr n (P Q : nat → nat → Prop) :
  edges b arr n P → (∀ p c, Q p c → P p c) → edges b arr n Q.
Proof. intros H HPQ c x y Hc Hq. apply H; auto. Qed.

(** ** One call of [heapify_down] *)

Section heapify_down.
Context (self : Heap).
Let b := _is_min_heap self.
Let l := _arr self.

Lemma heapify_down_step (st : store) (i n : nat) :
  (i < n ≤ length (contents l st))%nat →
  ∃ cum : nat,
    (cum = i ∨ ((cum = 2 * i + 1 ∨ cum = 2 * i + 2) ∧ cum < n))%nat ∧
    (∀ j xc xj, (j = i ∨ j = 2 * i + 1 ∨ j = 2 * i + 2)%nat → (j < n)%nat →
       contents l st !! cum = Some xc → contents l st !! j = Some xj →
       order b xc xj) ∧
    (∀ xc xi, cum ≠ i →
       contents l st !! cum = Some xc → contents l st !! i = Some xi →
       prior b xc xi = true) ∧
    ∀ fuel,
      heapify_down_fuel (S fuel) self (Z.of_nat i) (Z.of_nat n) st
      = if decide (cum = i) then Ok tt st
        else (_swap self (Z.of_nat i) (Z.of_nat cum);;
              heapify_down_fuel fuel self (Z.of_nat cum) (Z.of_nat n)) st.
Proof.
  intros [Hi Hn].
  destruct (lookup_lt_is_Some_2 (contents l st) i) as [xi Hxi]; [lia|].
  assert (∀ fuel (c1 c2 : bool),
    (if decide (2 * i + 1 < n)%nat
     then ∃ xl, contents l st !! (2 * i + 1)%nat = Some xl ∧ prior b xl xi = c1
     else c1 = false) →
    (if decide (2 * i + 2 < n)%nat
     then ∃ xr xc, contents l st !! (2 * i + 2)%nat = Some xr ∧
            contents l st !! (if c1 then 2 * i + 1 else i)%nat = Some xc ∧
            prior b xr xc = c2
     else c2 = false) →
    heapify_down_fuel (S fuel) self (Z.of_nat i) (Z.of_nat n) st
    = let cum := (if c2 then 2 * i + 2 else if c1 then 2 * i + 1 else i)%nat in
      if decide (cum = i) then Ok tt st
      else (_swap self (Z.of_nat i) (Z.of_nat cum);;
            heapify_down_fuel fuel self (Z.of_nat cum) (Z.of_nat n)) st)
    as Heval.
  { intros fuel c1 c2 H1 H2.
    cbn [heapify_down_fuel]. rewrite left_nat, right_nat, !ltb_nat.
    unfold and_then.
    assert ((if bool_decide (2 * i + 1 < n)%nat
             then _compare self (Z.of_nat (2 * i + 1)) (Z.of_nat i)
             else mret false) st = Ok c1 st) as E1.
    { destruct (decide (2 * i + 1 < n)%nat) as [Hl|Hl].
      - destruct H1 as (xl & Hxl & <-). rewrite (bool_decide_eq_true_2 _ Hl).
        by apply compare_nat.
      - subst c1. by rewrite (bool_decide_eq_false_2 _ Hl). }
    rewrite (bind_Ok _ _ _ _ _ E1).
    assert ((if bool_decide (2 * i + 2 < n)%nat
             then _compare self (Z.of_nat (2 * i + 2))
                    (if c1 then Z.of_nat (2 * i + 1) else Z.of_nat i)
             else mret false) st = Ok c2 st) as E2.
    { destruct (decide (2 * i + 2 < n)%nat) as [Hr|Hr].
      - destruct H2 as (xr & xc & Hxr & Hxc & <-).
        rewrite (bool_decide_eq_true_2 _ Hr).
        replace (if c1 then Z.of_nat (2 * i + 1) else Z.of_nat i)
          with (Z.of_nat (if c1 then 2 * i + 1 else i)%nat) by (by destruct c1).
        by apply compare_nat.
      - subst c2. by rewrite (bool_decide_eq_false_2 _ Hr). }
    rewrite (bind_Ok _ _ _ _ _ E2).
    replace (if c2 then Z.of_nat (2 * i + 2)
             else if c1 then Z.of_nat (2 * i + 1) else Z.of_nat i)
      with (Z.of_nat (if c2 then 2 * i + 2 else if c1 then 2 * i + 1 else i)%nat)
      by (by destruct c1, c2).
    rewrite eqb_nat. cbv zeta.
    destruct (decide (_ = i)) as [E|E].
    - by rewrite (bool_decide_eq_true_2 _ E).
    - by rewrite (bool_decide_eq_false_2 _ E). }
  destruct (decide (2 * i + 1 < n)%nat) as [Hl|Hl].
  - destruct (lookup_lt_is_Some_2 (contents l st) (2 * i + 1)) as [xl Hxl]; [lia|].
    destruct (decide (2 * i + 2 < n)%nat) as [Hr|Hr].
    + destruct (lookup_lt_is_Some_2 (contents l st) (2 * i + 2)) as [xr Hxr]; [lia|].
      destruct (prior b xl xi) eqn:E1.
      * destruct (prior b xr xl) eqn:E2;
          [exists (2 * i + 2)%nat | exists (2 * i + 1)%nat];
          (split; [lia|]); (split; [|split]).
        -- intros j xc xj Hj Hjn Hc Hxj. apply prior_true in E1, E2.
           destruct Hj as [-> | [-> | ->]]; simplify_eq;
             unfold order in *; destruct b; lia.
        -- intros xc xi' _ Hc Hxi'. simplify_eq.
           apply prior_true in E1, E2. unfold prior, order in *. destruct b; lia.
        -- intros fuel. rewrite (Heval fuel true true).
           ++ cbv zeta. by destruct (decide _).
           ++ simpl; eauto.
           ++ simpl; eauto.
        -- intros j xc xj Hj Hjn Hc Hxj. apply prior_true in E1.
           apply prior_false in E2.
           destruct Hj as [-> | [-> | ->]]; simplify_eq;
             unfold order in *; destruct b; lia.
        -- intros xc xi' _ Hc Hxi'. by simplify_eq.
        -- intros fuel. rewrite (Heval fuel true false).
           ++ cbv zeta. by destruct (decide _).
           ++ simpl; eauto.
           ++ simpl; eauto.
      * destruct (prior b xr xi) eqn:E2;
          [exists (2 * i + 2)%nat | exists i];
          (split; [lia|]); (split; [|split]).
        -- intros j xc xj Hj Hjn Hc Hxj. apply prior_false in E1.
           apply prior_true in E2.
           destruct Hj as [-> | [-> | ->]]; simplify_eq;
             unfold order in *; destruct b; lia.
        -- intros xc xi' _ Hc Hxi'. by simplify_eq.
        -- intros fuel. rewrite (Heval fuel false true).
           ++ cbv zeta. by destruct (decide _).
           ++ simpl; eauto.
           ++ simpl; eauto.
        -- intros j xc xj Hj Hjn Hc Hxj. apply prior_false in E1, E2.
           destruct Hj as [-> | [-> | ->]]; simplify_eq;
             unfold order in *; destruct b; lia.
        -- intros xc xi' Hne. done.
        -- intros fuel. rewrite (Heval fuel false false).
           ++ cbv zeta. by destruct (decide _).
           ++ simpl; eauto.
           ++ simpl; eauto.
    + destruct (prior b xl xi) eqn:E1;
        [exists (2 * i + 1)%nat | exists i];
        (split; [lia|]); (split; [|split]).
      * intros j xc xj Hj Hjn Hc Hxj. apply prior_true in E1.
        destruct Hj as [-> | [-> | ->]]; simplify_eq; try lia;
          unfold order in *; destruct b; lia.
      * intros xc xi' _ Hc Hxi'. by simplify_eq.
      * intros fuel. rewrite (Heval fuel true false).
        -- cbv zeta. by destruct (decide _).
        -- simpl; eauto.
        -- done.
      * intros j xc xj Hj Hjn Hc Hxj. apply prior_false in E1.
        destruct Hj as [-> | [-> | ->]]; simplify_eq; try lia;
          unfold order in *; destruct b; lia.
      * intros xc xi' Hne. done.
      * intros fuel. rewrite (Heval fuel false false).
        -- cbv zeta. by destruct (decide _).
        -- simpl; eauto.
        -- done.
  - exists i. split; [lia|]. split; [|split].
    + intros j xc xj Hj Hjn Hc Hxj.
      destruct Hj as [-> | [-> | ->]]; simplify_eq; try lia. apply order_refl.
    + intros xc xi' Hne. done.
    + intros fuel. rewrite (Heval fuel false false).
      * cbv zeta. by destruct (decide _).
      * done.
      * by rewrite decide_False by lia.
Qed.
End heapify_down.

(** ** [heapify_down] restores the order below a position *)

Section heapify_down_sound.
Context (self : Heap).
Let b := _is_min_heap self.
Let l := _arr self.

Lemma heapify_down_fuel_sound (fuel : nat) :
  ∀ (st : store) (i n : nat),
    (i < n ≤ length (contents l st))%nat → (n - i ≤ fuel)%nat →
    ∃ st',
      heapify_down_fuel fuel self (Z.of_nat i) (Z.of_nat n) st = Ok tt st' ∧
      touches_only l st st' ∧
      contents l st' ≡ₚ contents l st ∧
      (∀ j, (j < i)%nat → contents l st' !! j = contents l st !! j) ∧
      ∀ lo,
        edges b (contents l st) n (λ p _, lo ≤ p ∧ p ≠ i)%nat →
        ((0 < i)%nat → (lo ≤ up i)%nat → covers b (contents l st) n (up i) i) →
        edges b (contents l st') n (λ p _, lo ≤ p)%nat.
Proof.
  induction fuel as [|fuel IH]; intros st i n Hin Hfuel; [lia|].
  destruct (heapify_down_step self st i n Hin)
    as (cum & Hcum & Hbest & _ & Heval).
  rewrite Heval. clear Heval.
  destruct (lookup_lt_is_Some_2 (contents l st) i) as [xi Hxi]; [lia|].
  destruct (decide (cum = i)) as [Heq|Hne].
  - subst cum. exists st. split; [done|]. split; [apply touches_only_refl|].
    split; [done|]. split; [done|].
    intros lo Hpre _ c x y Hc Hlo Hx Hy.
    destruct (decide (up c = i)) as [Hu|Hu].
    + rewrite Hu in Hx. eapply (Hbest c); try done; [|lia].
      pose proof (up_child c). lia.
    + by apply (Hpre c x y).
  - assert (i < cum < n)%nat as Hlt by lia.
    assert (up cum = i) as Hup.
    { destruct Hcum as [?|[[->| ->] _]]; [done|apply up_left|apply up_right]. }
    destruct (lookup_lt_is_Some_2 (contents l st) cum) as [xc Hxc]; [lia|].
    erewrite then_Ok by (by eapply swap_nat).
    set (st1 := <[_arr self := _]> st).
    destruct (exchange_lookup _ _ _ _ _ Hxi Hxc) as (Ei & Ec & Eo).
    assert (contents l st1 = exchange (contents l st) i cum) as Hst1
      by apply contents_insert.
    destruct (IH st1 cum n) as (st' & Hrun & Hto & Hperm & Hlow & Hinv).
    { rewrite Hst1, exchange_length. lia. }
    { lia. }
    exists st'. split; [done|]. split; [|split; [|split]].
    + eapply touches_only_trans; [apply touches_only_insert|done].
    + rewrite Hperm, Hst1. apply exchange_Permutation.
    + intros j Hj. rewrite Hlow by lia. rewrite Hst1. apply Eo; lia.
    + intros lo Hpre Hgp. apply Hinv.
      * rewrite Hst1. intros c x y Hc [Hlo Hc'] Hx Hy.
        destruct (decide (up c = i)) as [Hu|Hu].
        -- rewrite Hu, Ei in Hx. injection Hx as <-.
           destruct (decide (c = cum)) as [->|Hcc].
           ++ rewrite Ec in Hy. injection Hy as <-.
              eapply (Hbest i); eauto; lia.
           ++ assert (0 < c)%nat as Hc0 by lia.
              pose proof (up_child c Hc0).
              rewrite Eo in Hy by lia.
              eapply (Hbest c); eauto; lia.
        -- rewrite Eo in Hx by done.
           destruct (decide (c = i)) as [->|Hci].
           ++ rewrite Ei in Hy. injection Hy as <-.
              eapply (Hgp ltac:(lia) ltac:(lia) cum); eauto; lia.
           ++ destruct (decide (c = cum)) as [->|Hcc]; [congruence|].
              rewrite Eo in Hy by done. by apply (Hpre c x y).
      * rewrite Hst1, Hup. intros _ Hlo c x y Hc Hu Hx Hy.
        rewrite Ei in Hx. injection Hx as <-.
        assert (cum < c)%nat.
        { pose proof (up_lt c). lia. }
        rewrite Eo in Hy by lia.
        apply (Hpre c xc y); rewrite ?Hu; try done; lia.
Qed.

Lemma heapify_down_sound (st : store) (i n : nat) :
  (i < n ≤ length (contents l st))%nat →
  ∃ st',
    heapify_down self (Z.of_nat i) (Z.of_nat n) st = Ok tt st' ∧
    touches_only l st st' ∧
    contents l st' ≡ₚ contents l st ∧
    (∀ j, (j < i)%nat → contents l st' !! j = contents l st !! j) ∧
    ∀ lo,
      edges b (contents l st) n (λ p _, lo ≤ p ∧ p ≠ i)%nat →
      ((0 < i)%nat → (lo ≤ up i)%nat → covers b (contents l st) n (up i) i) →
      edges b (contents l st') n (λ p _, lo ≤ p)%nat.
Proof.
  intros Hin. unfold heapify_down. apply heapify_down_fuel_sound; [done|].
  unfold recursion_bound. fold l. lia.
Qed.
End heapify_down_sound.

(** ** [heapify_up] restores the order above a position *)

Section heapify_up_sound.
Context (self : Heap).
Let b := _is_min_heap self.
Let l := _arr self.

Lemma heapify_up_fuel_sound (fuel : nat) :
  ∀ (st : store) (i : nat),
    (i < length (contents l st))%nat → (i < fuel)%nat →
    ∃ st',
      heapify_up_fuel fuel self (Z.of_nat i) st = Ok tt st' ∧
      touches_only l st st' ∧
      contents l st' ≡ₚ contents l st ∧
      (edges b (contents l st) (length (contents l st)) (λ _ c, c ≠ i) →
       ((0 < i)%nat →
        covers b (contents l st) (length (contents l st)) (up i) i) →
       edges b (contents l st') (length (contents l st)) (λ _ _, True)).
Proof.
  induction fuel as [|fuel IH]; intros st i Hi Hfuel; [lia|].
  cbn [heapify_up_fuel]. rewrite gtb_nat.
  destruct (decide (0 < i)%nat) as [Hpos|Hpos].
  - rewrite (bool_decide_eq_true_2 _ Hpos), parent_nat by done.
    pose proof (up_lt i Hpos) as Hup.
    destruct (lookup_lt_is_Some_2 (contents l st) i) as [xi Hxi]; [lia|].
    destruct (lookup_lt_is_Some_2 (contents l st) (up i)) as [xp Hxp]; [lia|].
    rewrite (bind_Ok _ _ _ _ _ (compare_nat self st _ _ _ _ Hxi Hxp)).
    fold b. destruct (prior b xi xp) eqn:E.
    + erewrite then_Ok by (by eapply swap_nat).
      set (st1 := <[_arr self := _]> st).
      destruct (exchange_lookup _ _ _ _ _ Hxi Hxp) as (Ei & Ep & Eo).
      assert (contents l st1 = exchange (contents l st) i (up i)) as Hst1
        by apply contents_insert.
      destruct (IH st1 (up i)) as (st' & Hrun & Hto & Hperm & Hinv).
      { rewrite Hst1, exchange_length. lia. }
      { lia. }
      exists st'. split; [done|]. split; [|split].
      * eapply touches_only_trans; [apply touches_only_insert|done].
      * rewrite Hperm, Hst1. apply exchange_Permutation.
      * intros Hpre Hgp. specialize (Hgp Hpos).
        rewrite Hst1, exchange_length in Hinv. apply Hinv.
        -- intros c x y Hc Hcp Hx Hy.
           destruct (decide (c = i)) as [->|Hci].
           ++ rewrite Ep in Hx. rewrite Ei in Hy.
              injection Hx as <-. injection Hy as <-.
              by apply prior_true in E as [E _].
           ++ rewrite Eo in Hy by done.
              destruct (decide (up c = i)) as [Hu|Hu].
              ** rewrite Hu, Ei in Hx. injection Hx as <-.
                 by apply (Hgp c xp y).
              ** destruct (decide (up c = up i)) as [Hu'|Hu'].
                 --- rewrite Hu', Ep in Hx. injection Hx as <-.
                     apply prior_true in E as [E _].
                     eapply order_trans; [exact E|].
                     apply (Hpre c xp y); rewrite ?Hu'; done.
                 --- rewrite Eo in Hx by done. by apply (Hpre c x y).
        -- intros Hp0 c x y Hc Hu Hx Hy.
           pose proof (up_lt (up i) Hp0) as Hup2.
           rewrite Eo in Hx by lia.
           destruct (lookup_lt_is_Some_2 (contents l st) (up i)) as [xp' Hxp']; [lia|].
           assert (order b x xp) as Hgp1.
           { apply (Hpre (up i) x xp); try done; lia. }
           destruct (decide (c = i)) as [->|Hci].
           ++ rewrite Ei in Hy. by injection Hy as <-.
           ++ assert (up i < c)%nat by (pose proof (up_lt c); lia).
              rewrite Eo in Hy by lia.
              eapply order_trans; [exact Hgp1|].
              apply (Hpre c xp y); rewrite ?Hu; done.
    + exists st. split; [done|]. split; [apply touches_only_refl|].
      split; [done|].
      intros Hpre _ c x y Hc _ Hx Hy.
      destruct (decide (c = i)) as [->|Hci].
      * rewrite Hxp in Hx. rewrite Hxi in Hy.
        injection Hx as <-. injection Hy as <-. by apply prior_false.
      * by apply (Hpre c x y).
  - rewrite (bool_decide_eq_false_2 _ Hpos).
    exists st. split; [done|]. split; [apply touches_only_refl|].
    split; [done|].
    intros Hpre _ c x y Hc _ Hx Hy.
    apply (Hpre c x y); try done. lia.
Qed.

Lemma heapify_up_sound (st : store) (i : nat) :
  (i < length (contents l st))%nat →
  ∃ st',
    heapify_up self (Z.of_nat i) st = Ok tt st' ∧
    touches_only l st st' ∧
    contents l st' ≡ₚ contents l st ∧
    (edges b (contents l st) (length (contents l st)) (λ _ c, c ≠ i) →
     ((0 < i)%nat →
      covers b (contents l st) (length (contents l st)) (up i) i) →
     edges b (contents l st') (length (contents l st)) (λ _ _, True)).
Proof.
  intros Hi. unfold heapify_up. apply heapify_up_fuel_sound; [done|lia].
Qed.
End heapify_up_sound.

(** ** [build_heap] *)

Lemma range_down_nil start : range_down start start = [].
Proof. unfold range_down. by rewrite Z.sub_diag. Qed.

Lemma range_down_cons start stop :
  stop < start → range_down start stop = start :: range_down (start - 1) stop.
Proof.
  intros H. unfold range_down.
  replace (Z.to_nat (start - stop)) with (S (Z.to_nat (start - 1 - stop))) by lia.
  cbn [seq fmap list_fmap]. f_equal; [lia|].
  rewrite <- fmap_S_seq, <- list_fmap_compose.
  apply list_fmap_ext. intros _ k _. simpl. lia.
Qed.

Lemma edges_leaves b arr :
  edges b arr (length arr) (λ p _, length arr / 2 ≤ p)%nat.
Proof.
  intros c x y Hc Hp _ _. exfalso.
  assert (0 < c)%nat as Hc0 by lia.
  pose proof (up_child c Hc0).
  pose proof (Nat.div_mod_eq (length arr) 2).
  pose proof (Nat.mod_upper_bound (length arr) 2). lia.
Qed.

Section build_heap_sound.
Context (self : Heap).
Let b := _is_min_heap self.
Let l := _arr self.

Lemma build_heap_loop (m : nat) :
  ∀ st : store,
    (2 * m ≤ length (contents l st))%nat →
    edges b (contents l st) (length (contents l st)) (λ p _, m ≤ p)%nat →
    ∃ st',
      for_each (range_down (Z.of_nat m - 1) (-1))
        (λ i, let* n := size self in heapify_down self i n) st = Ok tt st' ∧
      touches_only l st st' ∧
      contents l st' ≡ₚ contents l st ∧
      heap_inv b (contents l st').
Proof.
  induction m as [|m IH]; intros st Hm Hpre.
  - rewrite range_down_nil. exists st.
    split; [done|]. split; [apply touches_only_refl|]. split; [done|].
    apply heap_inv_edges. intros c x y Hc _. apply Hpre; [done|lia].
  - rewrite range_down_cons by lia.
    replace (Z.of_nat (S m) - 1) with (Z.of_nat m) by lia.
    cbn [for_each].
    destruct (heapify_down_sound self st m (length (contents l st)))
      as (st1 & Hrun & Hto & Hperm & _ & Hinv); [fold l; lia|].
    erewrite then_Ok; last first.
    { unfold size. erewrite bind_Ok by done. exact Hrun. }
    assert (length (contents l st1) = length (contents l st)) as Hlen
      by (by apply Permutation_length).
    destruct (IH st1) as (st' & Hrun' & Hto' & Hperm' & Hheap).
    { lia. }
    { rewrite Hlen. apply Hinv.
      - intros c x y Hc [Hlo Hne]. apply Hpre; [done|lia].
      - intros Hpos Hup. pose proof (up_lt m Hpos). lia. }
    exists st'. split; [done|]. split; [|split; [|done]].
    + by eapply touches_only_trans.
    + by etrans.
Qed.

Lemma build_heap_sound (st : store) :
  ∃ st',
    build_heap self st = Ok tt st' ∧
    touches_only l st st' ∧
    contents l st' ≡ₚ contents l st ∧
    heap_inv b (contents l st').
Proof.
  unfold build_heap, size.
  erewrite bind_Ok by done.
  replace (Z.of_nat (length (contents (_arr self) st)) `div` 2)
    with (Z.of_nat (length (contents l st) / 2)) by (by rewrite Nat2Z.inj_div).
  apply build_heap_loop.
  - pose proof (Nat.div_mod_eq (length (contents l st)) 2). lia.
  - apply edges_leaves.
Qed.
End build_heap_sound.

(** ** [push] and [pop] *)

Lemma len_eval l (st : store) :
  list_len l st = Ok (Z.of_nat (length (contents l st))) st.
Proof. done. Qed.

Lemma is_empty_eval self (st : store) :
  is_empty self st = Ok (bool_decide (contents (_arr self) st = [])) st.
Proof.
  unfold is_empty. erewrite bind_Ok by apply len_eval.
  unfold mret, M_ret. f_equal.
  destruct (contents (_arr self) st); by case_bool_decide.
Qed.

Lemma list_pop_snoc l (st : store) xs x :
  contents l st = xs ++ [x] → list_pop l st = Ok x (<[l := xs]> st).
Proof.
  intros H. unfold list_pop. rewrite H, last_snoc, length_app. simpl.
  replace (length xs + 1 - 1)%nat with (length xs) by lia.
  by rewrite take_app_length.
Qed.

Lemma list_split_last (xs : list Z) x :
  xs !! (length xs - 1)%nat = Some x →
  xs = take (length xs - 1) xs ++ [x].
Proof.
  intros H. rewrite <- (take_drop_middle _ _ _ H) at 1.
  f_equal. f_equal. apply drop_ge. apply lookup_lt_Some in H. lia.
Qed.

Lemma heap_inv_nil b : heap_inv b [].
Proof. intros i c x y _ H. by rewrite lookup_nil in H. Qed.

Section push_pop_sound.
Context (self : Heap).
Let b := _is_min_heap self.
Let l := _arr self.

Lemma push_sound (st : store) (v : Z) :
  ∃ st',
    push self v st = Ok tt st' ∧
    touches_only l st st' ∧
    contents l st' ≡ₚ v :: contents l st ∧
    (heap_inv b (contents l st) → heap_inv b (contents l st')).
Proof.
  unfold push.
  set (arr := contents l st).
  set (st1 := <[l := arr ++ [v]]> st).
  assert (list_append (_arr self) v st = Ok tt st1) as E1 by done.
  assert (contents l st1 = arr ++ [v]) as Hst1 by apply contents_insert.
  rewrite (then_Ok _ _ _ _ _ E1).
  erewrite bind_Ok by apply len_eval. fold l. rewrite Hst1.
  replace (Z.of_nat (length (arr ++ [v])) - 1) with (Z.of_nat (length arr))
    by (rewrite length_app; simpl; lia).
  destruct (heapify_up_sound self st1 (length arr))
    as (st' & Hrun & Hto & Hperm & Hinv).
  { fold l. rewrite Hst1, length_app. simpl. lia. }
  fold l in Hto, Hperm, Hinv. fold b in Hinv. rewrite Hst1 in Hperm, Hinv.
  exists st'. split; [done|]. split; [|split].
  - eapply touches_only_trans; [apply touches_only_insert|done].
  - rewrite Hperm. by rewrite Permutation_app_comm.
  - intros Hheap. apply heap_inv_edges.
    replace (length (contents l st')) with (length (arr ++ [v]))
      by (symmetry; by apply Permutation_length).
    apply Hinv.
    + intros c x y Hc Hne Hx Hy.
      rewrite length_app in Hc. simpl in Hc.
      assert (0 < c)%nat as Hc0 by lia. pose proof (up_lt c Hc0).
      rewrite lookup_app_l in Hx, Hy by lia.
      eapply Hheap; [|done..]. by apply up_child.
    + intros _ c x y Hc Hu. exfalso.
      rewrite length_app in Hc. simpl in Hc.
      assert (0 < c)%nat as Hc0 by lia. pose proof (up_lt c Hc0). lia.
Qed.

Lemma pop_empty (st : store) :
  contents l st = [] →
  pop self st = Raise (IndexError "Pop from empty heap") st.
Proof.
  intros H. unfold pop. erewrite bind_Ok by apply is_empty_eval.
  by rewrite bool_decide_eq_true_2.
Qed.

Lemma pop_sound (st : store) (root : Z) (rest : list Z) :
  contents l st = root :: rest →
  ∃ st',
    pop self st = Ok root st' ∧
    touches_only l st st' ∧
    contents l st' ≡ₚ rest ∧
    (heap_inv b (root :: rest) → heap_inv b (contents l st')).
Proof.
  intros Harr. unfold pop.
  erewrite bind_Ok by apply is_empty_eval. fold l.
  rewrite bool_decide_eq_false_2 by (by rewrite Harr).
  assert (contents l st !! 0%nat = Some root) as H0 by (by rewrite Harr).
  erewrite bind_Ok by (by apply (getitem_nat _ _ 0%nat)).
  unfold size. erewrite bind_Ok by apply len_eval. fold l.
  set (k := length rest).
  assert (length (contents l st) = S k) as Hlen by (by rewrite Harr).
  rewrite Hlen.
  replace (Z.of_nat (S k) - 1) with (Z.of_nat k) by lia.
  destruct (lookup_lt_is_Some_2 (contents l st) k) as [z Hz]; [lia|].
  erewrite then_Ok by (eapply (swap_nat _ _ 0%nat k); eassumption).
  fold l. set (arr1 := exchange (contents l st) 0 k).
  set (st1 := <[l := arr1]> st).
  destruct (exchange_lookup _ _ _ _ _ H0 Hz) as (E0 & Ek & Eo).
  fold arr1 in E0, Ek, Eo.
  assert (length arr1 = S k) as Hlen1
    by (unfold arr1; by rewrite exchange_length).
  set (arr2 := take k arr1).
  assert (arr1 = arr2 ++ [root]) as Hsplit.
  { rewrite (list_split_last arr1 root); rewrite Hlen1; simpl;
      rewrite ?Nat.sub_0_r; done. }
  assert (length arr2 = k) as Hlen2.
  { unfold arr2. rewrite length_take. lia. }
  erewrite then_Ok; last first.
  { apply list_pop_snoc. unfold st1. rewrite contents_insert. exact Hsplit. }
  set (st2 := <[l := arr2]> st1).
  assert (contents l st2 = arr2) as Hst2 by apply contents_insert.
  assert (touches_only l st st2) as Hto2.
  { eapply touches_only_trans; apply touches_only_insert. }
  assert (arr2 ≡ₚ rest) as Hperm2.
  { apply (inj (cons root)). rewrite <- Harr.
    rewrite <- (exchange_Permutation (contents l st) 0 k). fold arr1.
    rewrite Hsplit. by rewrite Permutation_app_comm. }
  erewrite bind_Ok by apply is_empty_eval. fold l. rewrite Hst2.
  destruct (decide (arr2 = [])) as [Hnil|Hnil].
  - rewrite (bool_decide_eq_true_2 _ Hnil). simpl.
    exists st2. split; [done|]. split; [done|]. rewrite Hst2.
    split; [done|]. intros _. rewrite Hnil. apply heap_inv_nil.
  - rewrite (bool_decide_eq_false_2 _ Hnil). simpl.
    assert (0 < k)%nat as Hk.
    { destruct arr2; [done|]. simpl in Hlen2. lia. }
    destruct (heapify_down_sound self st2 0 k)
      as (st' & Hrun & Hto & Hperm & _ & Hinv).
    { fold l. rewrite Hst2. lia. }
    fold l in Hto, Hperm, Hinv. fold b in Hinv. rewrite Hst2 in Hperm, Hinv.
    erewrite then_Ok; last first.
    { erewrite bind_Ok by apply len_eval. fold l. rewrite Hst2, Hlen2.
      exact Hrun. }
    exists st'. split; [done|]. split; [by eapply touches_only_trans|].
    split; [by etrans|].
    intros Hheap. apply heap_inv_edges.
    replace (length (contents l st')) with k
      by (rewrite <- Hlen2; symmetry; by apply Permutation_length).
    eapply edges_impl; [apply (Hinv 0%nat)|..].
    + intros c x y Hc [_ Hne] Hx Hy.
      pose proof (up_lt c ltac:(lia)).
      unfold arr2 in Hx, Hy. rewrite lookup_take_lt in Hx, Hy by lia.
      rewrite Eo in Hx, Hy by lia. rewrite Harr in Hx, Hy.
      eapply Hheap; [|done..]. apply up_child. lia.
    + lia.
    + intros; simpl; lia.
Qed.
End push_pop_sound.

(** ** [push_pop], [replace] and [clear] *)

Lemma find_index_Some v xs k :
  find_index v xs = Some k →
  xs !! k = Some v ∧ ∀ j x, (j < k)%nat → xs !! j = Some x → x ≠ v.
Proof.
  revert k. induction xs as [|x xs IH]; intros k; simpl; [done|].
  destruct (Z.eqb_spec x v) as [->|Hne].
  - intros [= <-]. split; [done|]. intros; lia.
  - destruct (find_index v xs) as [k'|]; simpl; [|done].
    intros [= <-]. destruct (IH k' eq_refl) as [Hk Hlt]. split; [done|].
    intros [|j] y Hj Hy; simpl in Hy; [congruence|]. eapply Hlt; [|done]. lia.
Qed.

Lemma find_index_None v xs : find_index v xs = None ↔ v ∉ xs.
Proof.
  induction xs as [|x xs IH]; simpl.
  - split; [intros _; apply not_elem_of_nil|done].
  - rewrite not_elem_of_cons. destruct (Z.eqb_spec x v) as [->|Hne].
    + split; [done|]. by intros [? _].
    + destruct (find_index v xs); simpl.
      * split; [done|]. intros [_ H]. by apply IH in H.
      * split; [|done]. intros _. split; [done|]. by apply IH.
Qed.

Lemma heap_inv_edge b arr c x y :
  heap_inv b arr → (0 < c)%nat →
  arr !! up c = Some x → arr !! c = Some y → order b x y.
Proof. intros H Hc Hx Hy. eapply H; [|done..]. by apply up_child. Qed.

Section replace_sound.
Context (self : Heap).
Let b := _is_min_heap self.
Let l := _arr self.

Lemma push_pop_sound (st : store) (v : Z) :
  ∃ r st',
    push_pop self v st = Ok r st' ∧
    touches_only l st st' ∧
    (heap_inv b (contents l st) → heap_inv b (contents l st')) ∧
    match contents l st with
    | [] => r = v ∧ contents l st' = [v]
    | root :: rest =>
        if push_pop_test b v root
        then r = root ∧ contents l st' ≡ₚ v :: rest
        else r = v ∧ st' = st
    end.
Proof.
  unfold push_pop. erewrite bind_Ok by apply is_empty_eval. fold l.
  destruct (contents l st) as [|root rest] eqn:Harr.
  - rewrite bool_decide_eq_true_2 by done.
    destruct (push_sound self st v) as (st' & Hrun & Hto & Hperm & Hinv).
    fold l in Hto, Hperm, Hinv. fold b in Hinv. rewrite Harr in Hperm, Hinv.
    erewrite then_Ok by done.
    exists v, st'. split; [done|]. split; [done|]. split; [done|].
    split; [done|]. by apply Permutation_singleton_r.
  - rewrite bool_decide_eq_false_2 by done.
    assert (contents l st !! 0%nat = Some root) as H0 by (by rewrite Harr).
    erewrite bind_Ok by (by apply (getitem_nat _ _ 0%nat)).
    fold b. fold (push_pop_test b v root).
    destruct (push_pop_test b v root).
    + erewrite then_Ok; last first.
      { apply (setitem_nat _ _ 0%nat). fold l. rewrite Harr. simpl. lia. }
      fold l. rewrite Harr. simpl.
      set (st1 := <[l := v :: rest]> st).
      assert (contents l st1 = v :: rest) as Hst1 by apply contents_insert.
      destruct (heapify_down_sound self st1 0 (S (length rest)))
        as (st' & Hrun & Hto & Hperm & _ & Hinv).
      { fold l. rewrite Hst1. simpl. lia. }
      fold l in Hto, Hperm, Hinv. fold b in Hinv. rewrite Hst1 in Hperm, Hinv.
      erewrite bind_Ok by apply len_eval. fold l. rewrite Hst1.
      erewrite then_Ok by exact Hrun.
      exists root, st'. split; [done|]. split; [|split; [|done]].
      * eapply touches_only_trans; [apply touches_only_insert|done].
      * intros Hheap. apply heap_inv_edges.
        replace (length (contents l st')) with (S (length rest))
          by (symmetry; by apply Permutation_length in Hperm).
        eapply edges_impl; [apply (Hinv 0%nat)|..].
        -- intros c x y Hc [_ Hne] Hx Hy.
           pose proof (up_lt c ltac:(lia)).
           destruct c as [|c]; [lia|]. destruct (up (S c)) as [|p] eqn:Hp; [done|].
           simpl in Hx, Hy.
           apply (heap_inv_edge b (root :: rest) (S c)); rewrite ?Hp; try done; lia.
        -- lia.
        -- intros; simpl; lia.
    + exists v, st. split; [done|]. split; [apply touches_only_refl|].
      by rewrite Harr.
Qed.

Lemma replace_empty (st : store) (old new : Z) :
  contents l st = [] →
  replace self old new st = Raise (ValueError "Heap is empty") st.
Proof.
  intros H. unfold replace. erewrite bind_Ok by apply is_empty_eval.
  by rewrite bool_decide_eq_true_2.
Qed.

Lemma replace_absent (st : store) (old new : Z) :
  contents l st ≠ [] → old ∉ contents l st →
  replace self old new st
  = Raise (ValueError (pretty old +:+ " not found in heap")) st.
Proof.
  intros Hne H. unfold replace. erewrite bind_Ok by apply is_empty_eval.
  rewrite bool_decide_eq_false_2 by done.
  apply bind_Raise. unfold try_except_ValueError, list_index.
  apply find_index_None in H. fold l. by rewrite H.
Qed.

Lemma replace_sound (st : store) (old new : Z) (k : nat) :
  find_index old (contents l st) = Some k →
  ∃ st',
    replace self old new st = Ok tt st' ∧
    touches_only l st st' ∧
    contents l st' ≡ₚ <[k := new]> (contents l st) ∧
    (heap_inv b (contents l st) → heap_inv b (contents l st')).
Proof.
  intros Hfind. destruct (find_index_Some _ _ _ Hfind) as [Hk _].
  pose proof (lookup_lt_Some _ _ _ Hk) as Hlt.
  unfold replace. erewrite bind_Ok by apply is_empty_eval.
  rewrite bool_decide_eq_false_2
    by (fold l; destruct (contents l st); [done|discriminate]).
  erewrite bind_Ok; last first.
  { unfold try_except_ValueError, list_index. fold l. by rewrite Hfind. }
  erewrite then_Ok by (by apply setitem_nat).
  fold l. set (arr := contents l st) in *.
  set (arr1 := <[k := new]> arr). set (st1 := <[l := arr1]> st).
  assert (contents l st1 = arr1) as Hst1 by apply contents_insert.
  assert (length arr1 = length arr) as Hlen1 by apply length_insert.
  assert (arr1 !! k = Some new) as Hk1 by (by apply list_lookup_insert_eq).
  assert (∀ j, j ≠ k → arr1 !! j = arr !! j) as Ho
    by (intros; by apply list_lookup_insert_ne).
  assert (∀ c x y, heap_inv b arr → (0 < c < length arr)%nat → up c = k →
            arr !! up k = Some x → arr1 !! c = Some y → (0 < k)%nat →
            order b x y) as Hcov.
  { intros c x y Hheap Hc Hu Hx Hy Hk0.
    pose proof (up_lt c ltac:(lia)).
    rewrite Ho in Hy by lia.
    eapply order_trans.
    - by apply (heap_inv_edge b arr k x old).
    - apply (heap_inv_edge b arr c old y); rewrite ?Hu; try done; lia. }
  rewrite gtb_nat. unfold and_then.
  destruct (decide (0 < k)%nat) as [Hpos|Hpos].
  - rewrite (bool_decide_eq_true_2 _ Hpos), parent_nat by done.
    pose proof (up_lt k Hpos) as Hup.
    destruct (lookup_lt_is_Some_2 arr (up k)) as [xp Hxp]; [lia|].
    erewrite bind_Ok; last first.
    { apply compare_nat; fold l; rewrite Hst1; [done|]. by rewrite Ho by lia. }
    fold b. destruct (prior b new xp) eqn:E.
    + destruct (heapify_up_sound self st1 k)
        as (st' & Hrun & Hto & Hperm & Hinv).
      { fold l. rewrite Hst1. lia. }
      fold l in Hto, Hperm, Hinv. fold b in Hinv. rewrite Hst1 in Hperm, Hinv.
      exists st'. split; [done|]. split; [|split; [done|]].
      * eapply touches_only_trans; [apply touches_only_insert|done].
      * intros Hheap. apply heap_inv_edges.
        replace (length (contents l st')) with (length arr1)
          by (symmetry; by apply Permutation_length in Hperm).
        apply Hinv.
        -- intros c x y Hc Hne Hx Hy. rewrite Hlen1 in Hc.
           destruct (decide (up c = k)) as [Hu|Hu].
           ++ rewrite Hu, Hk1 in Hx. injection Hx as <-.
              apply prior_true in E as [E _].
              eapply order_trans; [exact E|]. by apply (Hcov c).
           ++ rewrite Ho in Hx, Hy by done.
              apply (heap_inv_edge b arr c); try done; lia.
        -- intros _ c x y Hc Hu Hx Hy. rewrite Hlen1 in Hc.
           rewrite Ho in Hx by lia. by apply (Hcov c).
    + destruct (heapify_down_sound self st1 k (length arr))
        as (st' & Hrun & Hto & Hperm & _ & Hinv).
      { fold l. rewrite Hst1. lia. }
      fold l in Hto, Hperm, Hinv. fold b in Hinv. rewrite Hst1 in Hperm, Hinv.
      erewrite bind_Ok by apply len_eval. fold l. rewrite Hst1, Hlen1.
      exists st'. split; [done|]. split; [|split; [done|]].
      * eapply touches_only_trans; [apply touches_only_insert|done].
      * intros Hheap. apply heap_inv_edges.
        replace (length (contents l st')) with (length arr)
          by (symmetry; rewrite <- Hlen1; by apply Permutation_length in Hperm).
        eapply edges_impl; [apply (Hinv 0%nat)|..].
        -- intros c x y Hc [_ Hne] Hx Hy. rewrite Ho in Hx by done.
           destruct (decide (c = k)) as [->|Hck].
           ++ rewrite Hk1 in Hy. injection Hy as <-.
              rewrite Hxp in Hx. injection Hx as <-. by apply prior_false.
           ++ rewrite Ho in Hy by done.
              apply (heap_inv_edge b arr c); try done; lia.
        -- intros _ _ c x y Hc Hu Hx Hy.
           rewrite Ho in Hx by lia. by apply (Hcov c).
        -- intros; simpl; lia.
  - rewrite (bool_decide_eq_false_2 _ Hpos).
    assert (k = 0%nat) as -> by lia.
    destruct (heapify_down_sound self st1 0 (length arr))
      as (st' & Hrun & Hto & Hperm & _ & Hinv).
    { fold l. rewrite Hst1. lia. }
    fold l in Hto, Hperm, Hinv. fold b in Hinv. rewrite Hst1 in Hperm, Hinv.
    exists st'. split; [|split; [|split; [done|]]].
    + erewrite bind_Ok by reflexivity. unfold size.
      erewrite bind_Ok by apply len_eval. fold l. by rewrite Hst1, Hlen1.
    + eapply touches_only_trans; [apply touches_only_insert|done].
    + intros Hheap. apply heap_inv_edges.
      replace (length (contents l st')) with (length arr)
        by (symmetry; rewrite <- Hlen1; by apply Permutation_length in Hperm).
      eapply edges_impl; [apply (Hinv 0%nat)|..].
      * intros c x y Hc [_ Hne] Hx Hy.
        pose proof (up_lt c ltac:(lia)).
        rewrite Ho in Hx, Hy by lia.
        apply (heap_inv_edge b arr c); try done; lia.
      * lia.
      * intros; simpl; lia.
Qed.

Lemma clear_sound (st : store) :
  ∃ st',
    clear self st = Ok tt st' ∧ touches_only l st st' ∧ contents l st' = [].
Proof.
  exists (<[l := []]> st). split; [done|].
  split; [apply touches_only_insert|apply contents_insert].
Qed.
End replace_sound.

(** ** Termination of [heapify_down] *)

Lemma bind_mono {A B} (m : M A) (k k' : A → M B) (st : store) :
  bind m k st ≠ OutOfFuel →
  (∀ a st', m st = Ok a st' → k a st' ≠ OutOfFuel → k' a st' = k a st') →
  bind m k' st = bind m k st.
Proof. unfold bind. destruct (m st); auto. Qed.

Lemma and_then_inv (a : bool) (m : M bool) (st : store) c st' :
  and_then a m st = Ok c st' →
  (a = false ∧ c = false ∧ st' = st) ∨ (a = true ∧ m st = Ok c st').
Proof.
  unfold and_then. destruct a; [by right|]. intros [= <- <-]. by left.
Qed.

Lemma compare_inv self a b (st : store) c st' :
  _compare self a b st = Ok c st' →
  st' = st ∧
  - Z.of_nat (length (contents (_arr self) st)) ≤ a
    < Z.of_nat (length (contents (_arr self) st)).
Proof.
  unfold _compare, bind.
  destruct (_is_min_heap self);
    destruct (list_getitem (_arr self) a st) as [x st1| |] eqn:Ea; try done;
    apply getitem_inv in Ea as [-> Ha];
    destruct (list_getitem (_arr self) b st) as [y st2| |] eqn:Eb; try done;
    apply getitem_inv in Eb as [-> Hb];
    intros [= <- <-]; done.
Qed.

Lemma compare_fuel self a b (st : store) : _compare self a b st ≠ OutOfFuel.
Proof.
  unfold _compare, bind.
  destruct (_is_min_heap self);
    destruct (list_getitem (_arr self) a st) as [x st1| |] eqn:Ea; try done;
    try (by apply getitem_fuel in Ea);
    apply getitem_inv in Ea as [-> Ha];
    destruct (list_getitem (_arr self) b st) as [y st2| |] eqn:Eb; try done;
    by apply getitem_fuel in Eb.
Qed.

Lemma swap_inv self a b (st : store) st' :
  _swap self a b st = Ok tt st' →
  length (contents (_arr self) st') = length (contents (_arr self) st).
Proof.
  unfold _swap, bind, mbind, M_bind, bind.
  destruct (list_getitem (_arr self) b st) as [x st1| |] eqn:Eb; try done.
  apply getitem_inv in Eb as [-> _].
  destruct (list_getitem (_arr self) a st) as [y st1| |] eqn:Ea; try done.
  apply getitem_inv in Ea as [-> _].
  destruct (list_setitem (_arr self) a x st) as [[] st1| |] eqn:E1; try done.
  apply setitem_inv in E1 as [k1 ->].
  intros E2. apply setitem_inv in E2 as [k2 ->].
  by rewrite !contents_insert, !length_insert.
Qed.

Lemma swap_fuel self a b (st : store) : _swap self a b st ≠ OutOfFuel.
Proof.
  unfold _swap, bind, mbind, M_bind, bind.
  destruct (list_getitem (_arr self) b st) as [x st1| |] eqn:Eb; try done;
    [|by apply getitem_fuel in Eb].
  destruct (list_getitem (_arr self) a st1) as [y st2| |] eqn:Ea; try done;
    [|by apply getitem_fuel in Ea].
  destruct (list_setitem (_arr self) a x st2) as [[] st3| |] eqn:E1; try done;
    [|by apply setitem_fuel in E1].
  apply setitem_fuel.
Qed.

Lemma calls_left_bound arr index :
  (calls_left (length arr) index ≤ recursion_bound arr)%nat.
Proof.
  unfold calls_left, recursion_bound.
  destruct (Z.leb_spec 0 index); [lia|].
  destruct (Z.eqb_spec index (-1)); lia.
Qed.

Lemma calls_left_child len index cum :
  (cum = _left index ∨ cum = _right index) → cum ≠ index →
  - Z.of_nat len ≤ cum < Z.of_nat len →
  (calls_left len cum < calls_left len index)%nat.
Proof.
  unfold calls_left, _left, _right. intros Hc Hne Hr.
  destruct (Z.leb_spec 0 index); destruct (Z.leb_spec 0 cum);
    destruct (Z.eqb_spec index (-1)); destruct (Z.eqb_spec cum (-1)); lia.
Qed.

Section heapify_down_total.
Context (self : Heap).

Lemma heapify_down_fuel_total (fuel : nat) :
  ∀ (st : store) (index size : Z),
    (calls_left (length (contents (_arr self) st)) index ≤ fuel)%nat →
    heapify_down_fuel fuel self index size st ≠ OutOfFuel.
Proof.
  induction fuel as [|fuel IH]; intros st index size Hfuel.
  { unfold calls_left in Hfuel.
    destruct (0 <=? index); [lia|]. destruct (index =? -1); lia. }
  cbn [heapify_down_fuel]. unfold bind at 1.
  destruct (and_then (_left index <? size) _ st) as [c1 st1| |] eqn:E1;
    [|done|].
  2:{ unfold and_then in E1. destruct (_left index <? size); [|done].
      by apply compare_fuel in E1. }
  assert (st1 = st ∧
          (c1 = true → - Z.of_nat (length (contents (_arr self) st))
                       ≤ _left index
                       < Z.of_nat (length (contents (_arr self) st))))
    as [-> H1].
  { apply and_then_inv in E1 as [(_ & -> & ->)|[_ E1]]; [done|].
    apply compare_inv in E1 as [-> ?]. done. }
  unfold bind at 1.
  destruct (and_then (_right index <? size) _ st) as [c2 st2| |] eqn:E2;
    [|done|].
  2:{ unfold and_then in E2. destruct (_right index <? size); [|done].
      by apply compare_fuel in E2. }
  assert (st2 = st ∧
          (c2 = true → - Z.of_nat (length (contents (_arr self) st))
                       ≤ _right index
                       < Z.of_nat (length (contents (_arr self) st))))
    as [-> H2].
  { apply and_then_inv in E2 as [(_ & -> & ->)|[_ E2]]; [done|].
    apply compare_inv in E2 as [-> ?]. done. }
  set (cum := if c2 then _right index else if c1 then _left index else index).
  destruct (Z.eqb_spec cum index) as [Heq|Hne]; simpl; [done|].
  unfold mbind, M_bind, bind.
  destruct (_swap self index cum st) as [[] st3| |] eqn:E3; [|done|].
  2:{ by apply swap_fuel in E3. }
  apply swap_inv in E3. apply IH. rewrite E3.
  assert (calls_left (length (contents (_arr self) st)) cum
          < calls_left (length (contents (_arr self) st)) index)%nat; [|lia].
  apply calls_left_child; [| done |]; unfold cum in *;
    destruct c2, c1; auto; done.
Qed.

(** Fuel beyond what a call uses does not change its result. *)
Lemma heapify_down_fuel_mono (fuel : nat) :
  ∀ (st : store) (index size : Z),
    heapify_down_fuel fuel self index size st ≠ OutOfFuel →
    ∀ fuel', (fuel ≤ fuel')%nat →
      heapify_down_fuel fuel' self index size st
      = heapify_down_fuel fuel self index size st.
Proof.
  induction fuel as [|fuel IH]; intros st index size Hr fuel' Hle; [done|].
  destruct fuel' as [|fuel']; [lia|].
  cbn [heapify_down_fuel] in *.
  apply bind_mono; [done|]. intros c1 st1 _ Hr1.
  apply bind_mono; [done|]. intros c2 st2 _ Hr2.
  destruct (negb _); [|done].
  apply bind_mono; [done|]. intros [] st3 _ Hr3.
  apply IH; [done|lia].
Qed.

Lemma heapify_down_total (st : store) (index size : Z) :
  heapify_down self index size st ≠ OutOfFuel ∧
  ∀ fuel, (recursion_bound (contents (_arr self) st) ≤ fuel)%nat →
    heapify_down_fuel fuel self index size st
    = heapify_down self index size st.
Proof.
  assert (heapify_down self index size st ≠ OutOfFuel) as H.
  { apply heapify_down_fuel_total, calls_left_bound. }
  split; [done|]. intros fuel Hfuel. by apply heapify_down_fuel_mono.
Qed.
End heapify_down_total.

(** ** Termination of [heapify_up] *)

Section heapify_up_total.
Context (self : Heap).

Lemma heapify_up_fuel_total (fuel : nat) :
∀ (st : store) (index : Z),
  (Z.to_nat index < fuel)%nat →
  heapify_up_fuel fuel self index st ≠ OutOfFuel.
Proof.
induction fuel as [|fuel IH]; intros st index Hfuel; [lia|].
cbn [heapify_up_fuel].
destruct (Z.gtb_spec index 0) as [Hpos|Hpos]; [|done].
unfold bind at 1.
destruct (_compare self index (_parent index) st) as [c st1| |] eqn:E;
  [|done|by apply compare_fuel in E].
destruct c; [|done].
unfold mbind, M_bind, bind.
destruct (_swap self index (_parent index) st1) as [[] st2| |] eqn:E2;
  [|done|by apply swap_fuel in E2].
apply IH. unfold _parent.
assert ((index - 1) `div` 2 < index) by (apply Z.div_lt_upper_bound; lia).
assert (0 ≤ (index - 1) `div` 2) by (apply Z.div_pos; lia).
lia.
Qed.

(** Iterations beyond those a loop makes do not change its result. *)
Lemma heapify_up_fuel_mono (fuel : nat) :
∀ (st : store) (index : Z),
  heapify_up_fuel fuel self index st ≠ OutOfFuel →
  ∀ fuel', (fuel ≤ fuel')%nat →
    heapify_up_fuel fuel' self index st = heapify_up_fuel fuel self index st.
Proof.
induction fuel as [|fuel IH]; intros st index Hr fuel' Hle; [done|].
destruct fuel' as [|fuel']; [lia|].
cbn [heapify_up_fuel] in *.
destruct (index >? 0); [|done].
apply bind_mono; [done|]. intros c st1 _ Hr1.
destruct c; [|done].
apply bind_mono; [done|]. intros [] st2 _ Hr2.
apply IH; [done|lia].
Qed.

Lemma heapify_up_total (st : store) (index : Z) :
heapify_up self index st ≠ OutOfFuel ∧
∀ fuel, (Z.to_nat index < fuel)%nat →
  heapify_up_fuel fuel self index st = heapify_up self index st.
Proof.
assert (heapify_up self index st ≠ OutOfFuel) as H
  by (apply heapify_up_fuel_total; lia).
split; [done|]. intros fuel Hfuel.
by apply heapify_up_fuel_mono; [|lia].
Qed.
End heapify_up_total.

(** ** The constructor, the root, and repeated [pop] *)

Lemma init_sound (st0 : store) (src : loc) (isMinHeap : bool) :
  ∃ self st,
    __init__ src isMinHeap st0 = Ok self st ∧
    _is_min_heap self = isMinHeap ∧
    (_arr self ∉ dom st0) ∧
    is_Some (st !! _arr self) ∧
    (∀ l', l' ≠ _arr self → st !! l' = st0 !! l') ∧
    contents (_arr self) st ≡ₚ contents src st0 ∧
    heap_inv isMinHeap (contents (_arr self) st).
Proof.
  unfold __init__.
  set (l0 := fresh (dom st0)).
  set (st1 := <[l0 := contents src st0]> st0).
  set (self := {| _arr := l0; _is_min_heap := isMinHeap |}).
  assert (list_copy src st0 = Ok l0 st1) as E by done.
  rewrite (bind_Ok _ _ _ _ _ E). fold self.
  destruct (build_heap_sound self st1) as (st & Hrun & [Hto Hal] & Hperm & Hinv).
  rewrite (then_Ok _ _ _ _ _ Hrun).
  exists self, st. split; [done|]. split; [done|].
  split; [apply is_fresh|]. split; [|split; [|split; [|done]]].
  - apply Hal. simpl. unfold st1. rewrite lookup_insert_eq. eauto.
  - intros l' Hl'. rewrite Hto by done. unfold st1. by rewrite lookup_insert_ne.
  - rewrite Hperm. simpl. unfold st1. by rewrite contents_insert.
Qed.

Lemma heap_root b arr root :
  heap_inv b arr → arr !! 0%nat = Some root →
  ∀ j y, arr !! j = Some y → order b root y.
Proof.
  intros Hheap H0 j. induction j as [j IH] using lt_wf_ind. intros y Hy.
  destruct (decide (j = 0)%nat) as [->|Hj].
  - rewrite H0 in Hy. injection Hy as <-. apply order_refl.
  - pose proof (up_lt j ltac:(lia)) as Hup.
    destruct (lookup_lt_is_Some_2 arr (up j)) as [x Hx].
    { apply lookup_lt_Some in Hy. lia. }
    eapply order_trans; [by apply (IH (up j))|].
    apply (heap_inv_edge b arr j); [done|lia|done|done].
Qed.

Section pop_all_sound.
Context (self : Heap).
Let b := _is_min_heap self.
Let l := _arr self.

Lemma pop_all_fuel_sound (fuel : nat) :
  ∀ st : store,
    (length (contents l st) < fuel)%nat →
    heap_inv b (contents l st) →
    ∃ xs st',
      pop_all_fuel fuel self st = Ok xs st' ∧
      touches_only l st st' ∧
      contents l st' = [] ∧
      xs ≡ₚ contents l st ∧
      StronglySorted (order b) xs.
Proof.
  induction fuel as [|fuel IH]; intros st Hfuel Hheap; [lia|].
  cbn [pop_all_fuel]. erewrite bind_Ok by apply is_empty_eval. fold l.
  destruct (contents l st) as [|root rest] eqn:Harr.
  - rewrite bool_decide_eq_true_2 by done.
    exists [], st. split; [done|]. split; [apply touches_only_refl|].
    split; [done|]. split; [done|]. constructor.
  - rewrite bool_decide_eq_false_2 by done.
    destruct (pop_sound self st root rest Harr)
      as (st1 & Hrun & Hto & Hperm & Hinv).
    fold l in Hto, Hperm, Hinv. fold b in Hinv.
    rewrite (bind_Ok _ _ _ _ _ Hrun).
    destruct (IH st1) as (xs & st' & Hrun' & Hto' & Hnil & Hperm' & Hsorted).
    { apply Permutation_length in Hperm. simpl in Hfuel. lia. }
    { by apply Hinv. }
    rewrite (bind_Ok _ _ _ _ _ Hrun').
    exists (root :: xs), st'. split; [done|].
    split; [by eapply touches_only_trans|]. split; [done|].
    split; [by rewrite Hperm', Hperm|].
    constructor; [done|].
    apply Forall_forall. intros y Hy.
    rewrite Hperm', Hperm in Hy.
    apply list_elem_of_lookup in Hy as [j Hj].
    by apply (heap_root b (root :: rest) root Hheap eq_refl (S j)).
Qed.

Lemma pop_all_sound (st : store) :
  heap_inv b (contents l st) →
  ∃ xs st',
    pop_all self st = Ok xs st' ∧
    touches_only l st st' ∧
    contents l st' = [] ∧
    xs ≡ₚ contents l st ∧
    StronglySorted (order b) xs.
Proof. intros H. unfold pop_all. apply pop_all_fuel_sound; [fold l; lia|done]. Qed.
End pop_all_sound.

(** ** Messages and counting *)

Lemma string_length_app (s t : string) :
  String.length (s +:+ t) = (String.length s + String.length t)%nat.
Proof. induction s as [|a s IH]; simpl; [done|]. by rewrite IH. Qed.

Lemma not_found_message (v : Z) :
  "Heap is empty"%string ≠ pretty v +:+ " not found in heap".
Proof.
  intros H. apply (f_equal String.length) in H.
  rewrite string_length_app in H. simpl in H. lia.
Qed.

Lemma count_Permutation v xs ys : xs ≡ₚ ys → count v xs = count v ys.
Proof. intros H. unfold count. by rewrite H. Qed.

Lemma count_cons v x xs :
  count v (x :: xs) = ((if decide (x = v) then 1 else 0) + count v xs)%nat.
Proof. unfold count. rewrite filter_cons. by destruct (decide (x = v)). Qed.

Lemma count_insert (arr : list Z) k old new :
  arr !! k = Some old → old ≠ new →
  count new (<[k := new]> arr) = S (count new arr) ∧
  S (count old (<[k := new]> arr)) = count old arr.
Proof.
  intros Hk Hne.
  pose proof (insert_Permutation_cons arr k old new Hk) as Hperm.
  split.
  - pose proof (count_Permutation new _ _ Hperm) as H.
    rewrite !count_cons in H.
    rewrite decide_False in H by done. rewrite decide_True in H by done. lia.
  - pose proof (count_Permutation old _ _ Hperm) as H.
    rewrite !count_cons in H.
    rewrite decide_True in H by done. rewrite decide_False in H by done. lia.
Qed.

(** ** Every operation leaves the other list objects alone *)

Lemma run_op_sound self (o : op) (st : store) :
  ∃ st',
    final_store (run_op self o st) = Some st' ∧
    touches_only (_arr self) st st' ∧
    (heap_inv (_is_min_heap self) (contents (_arr self) st) →
     heap_inv (_is_min_heap self) (contents (_arr self) st')).
Proof.
  destruct o as [|v| |v|old new|]; cbn [run_op].
  - destruct (build_heap_sound self st) as (st' & -> & Hto & _ & Hinv).
    exists st'. split; [done|]. by split.
  - destruct (push_sound self st v) as (st' & -> & Hto & _ & Hinv).
    exists st'. split; [done|]. by split.
  - destruct (contents (_arr self) st) as [|root rest] eqn:Harr.
    + erewrite then_Raise by (by apply pop_empty).
      exists st. split; [done|]. split; [apply touches_only_refl|].
      by rewrite Harr.
    + destruct (pop_sound self st root rest Harr) as (st' & Hrun & Hto & _ & Hinv).
      erewrite then_Ok by done. exists st'. split; [done|]. by split.
  - destruct (push_pop_sound self st v) as (r & st' & Hrun & Hto & Hinv & _).
    erewrite then_Ok by done. exists st'. split; [done|]. by split.
  - destruct (contents (_arr self) st) as [|root rest] eqn:Harr.
    + rewrite replace_empty by done.
      exists st. split; [done|]. split; [apply touches_only_refl|].
      by rewrite Harr.
    + destruct (find_index old (root :: rest)) as [k|] eqn:Hfind.
      * rewrite <- Harr in Hfind.
        destruct (replace_sound self st old new k Hfind)
          as (st' & -> & Hto & _ & Hinv).
        exists st'. rewrite <- Harr. split; [done|]. by split.
      * apply find_index_None in Hfind.
        rewrite replace_absent by (by rewrite Harr).
        exists st. split; [done|]. split; [apply touches_only_refl|].
        by rewrite Harr.
  - destruct (clear_sound self st) as (st' & -> & Hto & Hnil).
    exists st'. split; [done|]. split; [done|].
    intros _. rewrite Hnil. apply heap_inv_nil.
Qed.

(** ** Checking the heap property by computation *)

Lemma heap_invb_spec b arr : heap_invb b arr = true → heap_inv b arr.
Proof.
  intros H. apply heap_inv_edges. intros c x y Hc _ Hx Hy.
  unfold heap_invb in H. rewrite forallb_forall in H.
  specialize (H c). fold (up c) in H. rewrite Hx, Hy in H.
  apply prior_false. apply negb_true_iff. apply H.
  apply in_seq. lia.
Qed.

Lemma range_down_rev (m : nat) :
  range_down (Z.of_nat m - 1) (-1) = rev (Z.of_nat <$> seq 0 m).
Proof.
  induction m as [|m IH].
  - apply range_down_nil.
  - rewrite range_down_cons by lia.
    replace (Z.of_nat (S m) - 1) with (Z.of_nat m) by lia.
    rewrite IH, seq_S, fmap_app, rev_app_distr. done.
Qed.

Lemma mutate_frame l (m : list_mutation) (st : store) :
  ∃ st', final_store (mutate l m st) = Some st' ∧
         ∀ l', l' ≠ l → st' !! l' = st !! l'.
Proof.
  destruct m as [i v|v| |]; cbn [mutate].
  - unfold list_setitem. destruct (resolve_index _ i) as [k|]; simpl.
    + eexists. split; [done|]. intros l' Hl'. by rewrite lookup_insert_ne.
    + by exists st.
  - eexists. split; [done|]. intros l' Hl'. by rewrite lookup_insert_ne.
  - unfold mbind, M_bind, bind, list_pop.
    destruct (last (contents l st)); simpl.
    + eexists. split; [done|]. intros l' Hl'. by rewrite lookup_insert_ne.
    + by exists st.
  - eexists. split; [done|]. intros l' Hl'. by rewrite lookup_insert_ne.
Qed.


(** ** [push_pop] against [push] followed by [pop] *)

Lemma heap_root_elem b root rest y :
  heap_inv b (root :: rest) → y ∈ root :: rest → order b root y.
Proof.
  intros Hheap [j Hj]%list_elem_of_lookup.
  by apply (heap_root b (root :: rest) root Hheap eq_refl j).
Qed.

(** In a max-heap [push_pop] always puts the value in place of the root
    and returns the root. *)
Lemma push_pop_max_heap self (st : store) (v root : Z) (rest : list Z) :
  _is_min_heap self = false →
  contents (_arr self) st = root :: rest →
  ∃ st', push_pop self v st = Ok root st' ∧
         contents (_arr self) st' ≡ₚ v :: rest.
Proof.
  intros Hb Harr.
  destruct (push_pop_sound self st v) as (r & st' & Hrun & _ & _ & Hd).
  rewrite Harr, Hb in Hd. simpl in Hd. destruct Hd as [-> Hperm]. eauto.
Qed.

(** In a min-heap [push_pop] agrees with [push] followed by [pop]: the same
    value is returned, and the same elements stay, in a heap. *)
Lemma push_pop_min_heap_agrees self (st : store) (v : Z) :
  _is_min_heap self = true →
  heap_inv true (contents (_arr self) st) →
  contents (_arr self) st ≠ [] →
  ∃ r st1 st2,
    push_pop self v st = Ok r st1 ∧
    (push self v;; pop self) st = Ok r st2 ∧
    contents (_arr self) st1 ≡ₚ contents (_arr self) st2 ∧
    heap_inv true (contents (_arr self) st1) ∧
    heap_inv true (contents (_arr self) st2).
Proof.
  intros Hb Hheap Hne.
  destruct (contents (_arr self) st) as [|root rest] eqn:Harr; [done|].
  destruct (push_pop_sound self st v) as (r & st1 & Hrun1 & _ & Hinv1 & Hd).
  rewrite Harr, Hb in Hd, Hinv1. specialize (Hinv1 Hheap).
  destruct (push_sound self st v) as (st' & Hpush & _ & Hperm' & Hinv').
  rewrite Harr in Hperm'. rewrite Harr, Hb in Hinv'. specialize (Hinv' Hheap).
  destruct (contents (_arr self) st') as [|root' rest'] eqn:Harr'.
  { by apply Permutation_nil_cons in Hperm'. }
  destruct (pop_sound self st' root' rest' Harr')
    as (st2 & Hpop & _ & Hperm2 & Hinv2).
  rewrite Hb in Hinv2. specialize (Hinv2 Hinv').
  assert (∀ y, y ∈ root :: rest → root ≤ y) as Hmin
    by (intros y Hy; by apply (heap_root_elem true root rest y)).
  assert (∀ y, y ∈ v :: root :: rest → root' ≤ y) as Hmin'.
  { intros y Hy. apply (heap_root_elem true root' rest' y); [done|].
    by rewrite Hperm'. }
  assert (root' ∈ v :: root :: rest) as Hin'.
  { rewrite <- Hperm'. apply list_elem_of_here. }
  pose proof (Hmin' v ltac:(apply list_elem_of_here)) as Hv.
  pose proof (Hmin' root ltac:(apply list_elem_of_further, list_elem_of_here))
    as Hroot.
  assert (v ≤ root' ∨ root ≤ root') as Hlow.
  { apply elem_of_cons in Hin' as [->|Hin']; [lia|]. right. by apply Hmin. }
  unfold push_pop_test in Hd. simpl in Hd.
  exists r, st1, st2. split; [done|].
  destruct (Z.gtb_spec v root) as [Hgt|Hle]; simpl in Hd.
  - destruct Hd as [-> Hperm1].
    assert (root' = root) as -> by lia.
    split; [by rewrite (then_Ok _ _ _ _ _ Hpush)|].
    split; [|done].
    rewrite Hperm1, Hperm2. apply (inj (cons root)).
    rewrite Hperm'. apply perm_swap.
  - destruct (Z.ltb_spec v root) as [Hlt|Hge]; simpl in Hd.
    + destruct Hd as [-> ->].
      assert (root' = v) as -> by lia.
      split; [by rewrite (then_Ok _ _ _ _ _ Hpush)|].
      split; [|done].
      rewrite Harr, Hperm2. apply (inj (cons v)). by rewrite Hperm'.
    + destruct Hd as [-> Hperm1].
      assert (root' = root) as -> by lia.
      split; [by rewrite (then_Ok _ _ _ _ _ Hpush)|].
      split; [|done].
      rewrite Hperm1, Hperm2. apply (inj (cons root)).
      rewrite Hperm'. apply perm_swap.
Qed.

(** * The claims *)

(** C1.  [push_pop] is documented as [push] followed by [pop].  On the
    max-heap built from 10, 4, 7 that is not what it does: [push_pop 20]
    returns the old root 10 and leaves 20, 4, 7 in the heap, whereas
    [push 20] followed by [pop] returns 20 and leaves 10, 4, 7.  In a
    max-heap the test of [push_pop] is true whatever the value is. *)
Theorem push_pop_differs_from_push_then_pop :
  (∀ value root, push_pop_test false value root = true) ∧
  ∃ self st,
    Heap_of [10; 4; 7] false = Ok self st ∧
    contents (_arr self) st = [10; 4; 7] ∧
    (∃ st', push_pop self 20 st = Ok 10 st' ∧
            contents (_arr self) st' = [20; 4; 7]) ∧
    (∃ st', (push self 20;; pop self) st = Ok 20 st' ∧
            contents (_arr self) st' = [10; 4; 7]).
Proof.
  split; [done|].
  eexists _, _. split; [vm_compute; reflexivity|].
  split; [vm_compute; reflexivity|]. split.
  - eexists. split; vm_compute; reflexivity.
  - eexists. split; vm_compute; reflexivity.
Qed.

(** C2.  [peek] tests the bound method [self.is_empty] instead of calling
    it, so it takes the heap for empty every time: it never raises, and it
    returns [None] on every heap.  On the max-heap built from
    3, 1, 4, 1, 5, 9, 2, 6, whose root is 9, [peek] returns [None]. *)
Theorem peek_always_returns_None :
  (∀ self (st : store), peek self st = Ok None st) ∧
  ∃ self st,
    Heap_of [3; 1; 4; 1; 5; 9; 2; 6] false = Ok self st ∧
    contents (_arr self) st !! 0%nat = Some 9 ∧
    peek self st = Ok None st.
Proof.
  split; [done|].
  eexists _, _. split; [vm_compute; reflexivity|]. split; vm_compute; reflexivity.
Qed.

(** C3.  The heap property holds after every public operation that changes
    the heap: the constructor establishes it on any list, and each of
    [build_heap], [push], [pop], [push_pop], [replace] and [clear], started
    on a heap that has it, ends (by returning or by raising) in a heap that
    has it. *)
Theorem heap_invariant_after_every_operation :
  (∀ (st0 : store) (src : loc) (isMinHeap : bool),
     ∃ self st,
       __init__ src isMinHeap st0 = Ok self st ∧
       _is_min_heap self = isMinHeap ∧
       heap_inv isMinHeap (contents (_arr self) st)) ∧
  (∀ self (o : op) (st : store),
     heap_inv (_is_min_heap self) (contents (_arr self) st) →
     ∃ st',
       final_store (run_op self o st) = Some st' ∧
       heap_inv (_is_min_heap self) (contents (_arr self) st')).
Proof.
  split.
  - intros st0 src b.
    destruct (init_sound st0 src b) as (self & st & H & Hb & _ & _ & _ & _ & Hinv).
    by exists self, st.
  - intros self o st Hheap.
    destruct (run_op_sound self o st) as (st' & H & _ & Hinv).
    exists st'. split; [done|]. by apply Hinv.
Qed.

Lemma heap_invariant_after_every_operation_witness :
  let self := {| _arr := 0%nat; _is_min_heap := false |} in
  let st : store := {[ 0%nat := [9; 4; 7] ]} in
  heap_invb false (contents 0%nat st) = true ∧
  ∃ st',
    final_store (run_op self (OpPushPop 5) st) = Some st' ∧
    heap_inv false (contents 0%nat st').
Proof.
  split; [reflexivity|].
  apply (proj2 heap_invariant_after_every_operation
           {| _arr := 0%nat; _is_min_heap := false |} (OpPushPop 5)).
  apply heap_invb_spec. reflexivity.
Defined.

(** C4.  Heap sort: a heap constructed from any list and popped until it
    is empty yields a permutation of that list, non-decreasing for a
    min-heap and non-increasing for a max-heap. *)
Theorem pop_until_empty_sorted_permutation :
  ∀ (st0 : store) (src : loc) (isMinHeap : bool),
    ∃ self st ys st',
      __init__ src isMinHeap st0 = Ok self st ∧
      pop_all self st = Ok ys st' ∧
      contents (_arr self) st' = [] ∧
      ys ≡ₚ contents src st0 ∧
      if isMinHeap then StronglySorted Z.le ys
      else StronglySorted (flip Z.le) ys.
Proof.
  intros st0 src b.
  destruct (init_sound st0 src b)
    as (self & st & H & Hb & _ & _ & _ & Hperm & Hinv).
  rewrite <- Hb in Hinv.
  destruct (pop_all_sound self st Hinv)
    as (ys & st' & Hrun & _ & Hnil & Hperm' & Hsorted).
  exists self, st, ys, st'. split; [done|]. split; [done|]. split; [done|].
  split; [by rewrite Hperm', Hperm|].
  rewrite Hb in Hsorted. by destruct b.
Qed.

(** C5.  [pop] raises its [IndexError] exactly when the heap is empty, and
    [replace] raises "not found" exactly when the heap is non-empty and
    [oldValue] is not in it; a call that raises leaves the store as it
    found it. *)
Theorem errors_exactly_and_state_unchanged :
  ∀ self (st : store) (oldValue newValue : Z),
    ((∃ e st', pop self st = Raise e st') ↔ contents (_arr self) st = []) ∧
    ((∃ root st', pop self st = Ok root st') ↔ contents (_arr self) st ≠ []) ∧
    (∀ e st', pop self st = Raise e st' →
       e = IndexError "Pop from empty heap" ∧ st' = st) ∧
    ((∃ st', replace self oldValue newValue st
             = Raise (ValueError (pretty oldValue +:+ " not found in heap")) st')
     ↔ contents (_arr self) st ≠ [] ∧ oldValue ∉ contents (_arr self) st) ∧
    ((∃ st', replace self oldValue newValue st = Ok tt st')
     ↔ oldValue ∈ contents (_arr self) st) ∧
    (∀ e st', replace self oldValue newValue st = Raise e st' → st' = st).
Proof.
  intros self st old new.
  assert (contents (_arr self) st = [] →
          pop self st = Raise (IndexError "Pop from empty heap") st) as Hpe
    by apply pop_empty.
  assert (contents (_arr self) st ≠ [] → ∃ root st', pop self st = Ok root st')
    as Hpo.
  { intros Hne. destruct (contents (_arr self) st) as [|root rest] eqn:Harr;
      [done|].
    destruct (pop_sound self st root rest Harr) as (st' & H & _). eauto. }
  assert (contents (_arr self) st = [] →
          replace self old new st = Raise (ValueError "Heap is empty") st)
    as Hre by apply replace_empty.
  assert (contents (_arr self) st ≠ [] → old ∉ contents (_arr self) st →
          replace self old new st
          = Raise (ValueError (pretty old +:+ " not found in heap")) st)
    as Hra by apply replace_absent.
  assert (old ∈ contents (_arr self) st →
          ∃ st', replace self old new st = Ok tt st') as Hro.
  { intros Hin.
    destruct (find_index old (contents (_arr self) st)) as [k|] eqn:Hfind.
    - destruct (replace_sound self st old new k Hfind) as (st' & H & _). eauto.
    - by apply find_index_None in Hfind. }
  pose proof (not_found_message old) as Hmsg.
  destruct (decide (contents (_arr self) st = [])) as [Hnil|Hnil];
    [|destruct (decide (old ∈ contents (_arr self) st)) as [Hin|Hin]].
  - specialize (Hpe Hnil). specialize (Hre Hnil). rewrite Hpe, Hre.
    clear Hpe Hpo Hre Hra Hro.
    assert (old ∉ contents (_arr self) st) as Hin
      by (rewrite Hnil; apply not_elem_of_nil).
    outcome_cases.
  - destruct (Hpo Hnil) as (root & st1 & Hp). destruct (Hro Hin) as (st2 & Hr).
    rewrite Hp, Hr. clear Hpe Hpo Hre Hra Hro Hp Hr.
    outcome_cases.
  - destruct (Hpo Hnil) as (root & st1 & Hp). specialize (Hra Hnil Hin).
    rewrite Hp, Hra. clear Hpe Hpo Hre Hra Hro Hp.
    outcome_cases.
Qed.

(** C6.  [build_heap] runs [heapify_down] at the positions
    [len // 2 - 1, ..., 1, 0] in that order; on any list it returns, keeps
    the elements as a multiset and establishes the heap property, and so it
    does on a list that is a heap already. *)
Theorem build_heap_correct :
  ∀ self (st : store),
    build_heap self st
    = for_each (rev (Z.of_nat <$> seq 0 (length (contents (_arr self) st) / 2)))
        (λ i, let* n := size self in heapify_down self i n) st ∧
    ∃ st',
      build_heap self st = Ok tt st' ∧
      contents (_arr self) st' ≡ₚ contents (_arr self) st ∧
      heap_inv (_is_min_heap self) (contents (_arr self) st').
Proof.
  intros self st. split.
  - unfold build_heap, size. erewrite bind_Ok by apply len_eval.
    rewrite <- range_down_rev. by rewrite Nat2Z.inj_div.
  - destruct (build_heap_sound self st) as (st' & H & _ & Hperm & Hinv).
    by exists st'.
Qed.

(** C7.  [replace] on a heap that contains [oldValue] returns; it writes
    [newValue] at the first position that holds [oldValue] and moves it to
    its place, so the elements afterwards are those of the list with that
    one position replaced: when the two values differ, [newValue] occurs
    once more and [oldValue] once less; and a heap stays a heap.  On the
    min-heap built from 5, 3, 8, 1, after [replace 8 0] the root is 0. *)
Theorem replace_correct :
  (∀ self (st : store) (oldValue newValue : Z),
     oldValue ∈ contents (_arr self) st →
     ∃ (k : nat) st',
       find_index oldValue (contents (_arr self) st) = Some k ∧
       contents (_arr self) st !! k = Some oldValue ∧
       (∀ j x, (j < k)%nat → contents (_arr self) st !! j = Some x →
               x ≠ oldValue) ∧
       replace self oldValue newValue st = Ok tt st' ∧
       contents (_arr self) st' ≡ₚ <[k := newValue]> (contents (_arr self) st) ∧
       (oldValue ≠ newValue →
        count newValue (contents (_arr self) st')
        = S (count newValue (contents (_arr self) st)) ∧
        S (count oldValue (contents (_arr self) st'))
        = count oldValue (contents (_arr self) st)) ∧
       (heap_inv (_is_min_heap self) (contents (_arr self) st) →
        heap_inv (_is_min_heap self) (contents (_arr self) st'))) ∧
  (∃ self st st',
     Heap_of [5; 3; 8; 1] true = Ok self st ∧
     replace self 8 0 st = Ok tt st' ∧
     contents (_arr self) st' !! 0%nat = Some 0).
Proof.
  split.
  - intros self st old new Hin.
    destruct (find_index old (contents (_arr self) st)) as [k|] eqn:Hfind;
      [|by apply find_index_None in Hfind].
    destruct (find_index_Some _ _ _ Hfind) as [Hk Hfirst].
    destruct (replace_sound self st old new k Hfind)
      as (st' & Hrun & _ & Hperm & Hinv).
    exists k, st'. split; [done|]. split; [done|]. split; [done|].
    split; [done|]. split; [done|]. split; [|done].
    intros Hne. rewrite !(count_Permutation _ _ _ Hperm).
    by apply count_insert.
  - eexists _, _, _. split; [vm_compute; reflexivity|].
    split; vm_compute; reflexivity.
Qed.

Lemma replace_correct_witness :
  let self := {| _arr := 0%nat; _is_min_heap := true |} in
  let st : store := {[ 0%nat := [1; 3; 8; 5] ]} in
  ∃ (k : nat) st',
    find_index 8 (contents 0%nat st) = Some k ∧
    contents 0%nat st !! k = Some 8 ∧
    (∀ j x, (j < k)%nat → contents 0%nat st !! j = Some x → x ≠ 8) ∧
    replace self 8 0 st = Ok tt st' ∧
    contents 0%nat st' ≡ₚ <[k := 0]> (contents 0%nat st) ∧
    (8 ≠ 0 →
     count 0 (contents 0%nat st') = S (count 0 (contents 0%nat st)) ∧
     S (count 8 (contents 0%nat st')) = count 8 (contents 0%nat st)) ∧
    (heap_inv true (contents 0%nat st) → heap_inv true (contents 0%nat st')).
Proof.
  apply (proj1 replace_correct
           {| _arr := 0%nat; _is_min_heap := true |}
           {[ 0%nat := [1; 3; 8; 5] ]} 8 0).
  vm_compute. apply list_elem_of_In. simpl. tauto.
Defined.

(** C8.  The constructor copies: the heap's list is a new object, and the
    caller's list keeps its elements.  No operation on the heap writes to
    any list object but the heap's own.  [items] returns a new list object
    with the heap's elements in storage order, and whatever is done to that
    list, the heap's list stays as it is. *)
Theorem no_aliasing :
  (∀ (st0 : store) (src : loc) (isMinHeap : bool) (xs : list Z),
     st0 !! src = Some xs →
     ∃ self st,
       __init__ src isMinHeap st0 = Ok self st ∧
       _arr self ≠ src ∧
       st !! src = Some xs ∧
       is_Some (st !! _arr self) ∧
       contents (_arr self) st ≡ₚ xs) ∧
  (∀ self (o : op) (st : store) (l' : loc),
     l' ≠ _arr self →
     ∃ st',
       final_store (run_op self o st) = Some st' ∧
       st' !! l' = st !! l' ∧
       (is_Some (st !! _arr self) → is_Some (st' !! _arr self))) ∧
  (∀ self (st : store),
     is_Some (st !! _arr self) →
     ∃ l' st1,
       items self st = Ok l' st1 ∧
       l' ≠ _arr self ∧
       st1 !! l' = Some (contents (_arr self) st) ∧
       st1 !! _arr self = st !! _arr self ∧
       ∀ m : list_mutation,
         ∃ st2,
           final_store (mutate l' m st1) = Some st2 ∧
           st2 !! _arr self = st !! _arr self).
Proof.
  split; [|split].
  - intros st0 src b xs Hsrc.
    destruct (init_sound st0 src b)
      as (self & st & H & _ & Hfresh & Hal & Hframe & Hperm & _).
    assert (_arr self ≠ src) as Hne.
    { intros E. apply Hfresh. rewrite E. apply elem_of_dom. eauto. }
    exists self, st. split; [done|]. split; [done|].
    split; [by rewrite Hframe|]. split; [done|].
    by rewrite Hperm, (contents_lookup _ _ _ Hsrc).
  - intros self o st l' Hl'.
    destruct (run_op_sound self o st) as (st' & H & [Hframe Hal] & _).
    exists st'. split; [done|]. split; [by apply Hframe|done].
  - intros self st Hal.
    set (l' := fresh (dom st)).
    assert (l' ≠ _arr self) as Hne.
    { intros E. apply (is_fresh (dom st)). change (l' ∈ dom st).
      apply elem_of_dom. by rewrite E. }
    exists l', (<[l' := contents (_arr self) st]> st).
    split; [done|]. split; [done|].
    split; [by rewrite lookup_insert_eq|].
    split; [by rewrite lookup_insert_ne|].
    intros m.
    destruct (mutate_frame l' m (<[l' := contents (_arr self) st]> st))
      as (st2 & H & Hframe).
    exists st2. split; [done|].
    rewrite Hframe by done. by rewrite lookup_insert_ne.
Qed.

Lemma no_aliasing_witness :
  let st0 : store := {[ 0%nat := [3; 1; 2] ]} in
  (∃ self st,
     __init__ 0%nat false st0 = Ok self st ∧
     _arr self ≠ 0%nat ∧
     st !! 0%nat = Some [3; 1; 2] ∧
     is_Some (st !! _arr self) ∧
     contents (_arr self) st ≡ₚ [3; 1; 2]) ∧
  (let self := {| _arr := 1%nat; _is_min_heap := false |} in
   let st : store := {[ 0%nat := [3; 1; 2]; 1%nat := [3; 1; 2] ]} in
   ∃ st',
     final_store (run_op self (OpPush 7) st) = Some st' ∧
     st' !! 0%nat = st !! 0%nat ∧
     (is_Some (st !! 1%nat) → is_Some (st' !! 1%nat))) ∧
  (let self := {| _arr := 1%nat; _is_min_heap := false |} in
   let st : store := {[ 0%nat := [3; 1; 2]; 1%nat := [3; 1; 2] ]} in
   ∃ l' st1,
     items self st = Ok l' st1 ∧
     l' ≠ 1%nat ∧
     st1 !! l' = Some (contents 1%nat st) ∧
     st1 !! 1%nat = st !! 1%nat ∧
     ∀ m : list_mutation,
       ∃ st2,
         final_store (mutate l' m st1) = Some st2 ∧
         st2 !! 1%nat = st !! 1%nat).
Proof.
  split; [|split].
  - apply (proj1 no_aliasing {[ 0%nat := [3; 1; 2] ]} 0%nat false [3; 1; 2]).
    reflexivity.
  - apply (proj1 (proj2 no_aliasing)
             {| _arr := 1%nat; _is_min_heap := false |} (OpPush 7)
             {[ 0%nat := [3; 1; 2]; 1%nat := [3; 1; 2] ]} 0%nat).
    simpl. lia.
  - apply (proj2 (proj2 no_aliasing)
             {| _arr := 1%nat; _is_min_heap := false |}
             {[ 0%nat := [3; 1; 2]; 1%nat := [3; 1; 2] ]}).
    vm_compute. eauto.
Defined.

(** C9.  [heapify_down] terminates.  For every index and every size that
    does not exceed the length of the list, the call returns or raises
    within the recursion bound, and more fuel does not change its result;
    from a non-negative index it returns, with the same elements, on any
    fuel above [size - index].  At an index below [size] the call picks,
    among the index and those of its children that are below [size], a
    position whose element has priority over the others; when that is the
    index itself (as it is when its element has priority over the
    children) the list is left as it is; otherwise the two positions are
    exchanged and the call goes on from the child, closer to [size]. *)
Theorem heapify_down_terminates :
  ∀ self (st : store) (index size : Z),
    size ≤ Z.of_nat (length (contents (_arr self) st)) →
    (heapify_down self index size st ≠ OutOfFuel ∧
     ∀ fuel, (recursion_bound (contents (_arr self) st) ≤ fuel)%nat →
       heapify_down_fuel fuel self index size st
       = heapify_down self index size st) ∧
    (0 ≤ index →
     (∃ st', heapify_down self index size st = Ok tt st' ∧
             contents (_arr self) st' ≡ₚ contents (_arr self) st) ∧
     ∀ fuel, (Z.to_nat (size - index) < fuel)%nat →
       heapify_down_fuel fuel self index size st
       = heapify_down self index size st) ∧
    (0 ≤ index < size →
     ∃ cum : Z,
       (cum = index ∨
        ((cum = _left index ∨ cum = _right index) ∧ cum < size)) ∧
       (∀ j xc xj,
          j = index ∨ j = _left index ∨ j = _right index → j < size →
          contents (_arr self) st !! Z.to_nat cum = Some xc →
          contents (_arr self) st !! Z.to_nat j = Some xj →
          order (_is_min_heap self) xc xj) ∧
       ((∀ j xi xj,
           j = _left index ∨ j = _right index → j < size →
           contents (_arr self) st !! Z.to_nat index = Some xi →
           contents (_arr self) st !! Z.to_nat j = Some xj →
           order (_is_min_heap self) xi xj) →
        cum = index) ∧
       (cum = index → heapify_down self index size st = Ok tt st) ∧
       (cum ≠ index →
        (Z.to_nat (size - cum) < Z.to_nat (size - index))%nat ∧
        ∀ fuel,
          heapify_down_fuel (S fuel) self index size st
          = (_swap self index cum;;
             heapify_down_fuel fuel self cum size) st)).
Proof.
  intros self st index size Hsize.
  split; [apply heapify_down_total|]. split.
  - intros Hindex.
    assert (∀ fuel, (Z.to_nat (size - index) < fuel)%nat →
              ∃ st', heapify_down_fuel fuel self index size st = Ok tt st' ∧
                     contents (_arr self) st' ≡ₚ contents (_arr self) st)
      as Hfuel.
    { intros fuel Hlt.
      destruct (Z.lt_ge_cases index size) as [Hin|Hout].
      - destruct (heapify_down_fuel_sound self fuel st
                    (Z.to_nat index) (Z.to_nat size))
          as (st' & Hrun & _ & Hperm & _); [lia|lia|].
        rewrite !Z2Nat.id in Hrun by lia. eauto.
      - destruct fuel as [|fuel]; [lia|].
        exists st. split; [|done].
        cbn [heapify_down_fuel]. unfold _left, _right, and_then.
        destruct (Z.ltb_spec (index * 2 + 1) size); [lia|].
        destruct (Z.ltb_spec (index * 2 + 2) size); [lia|].
        unfold bind, mret, M_ret. by rewrite Z.eqb_refl. }
    assert (∀ fuel, (Z.to_nat (size - index) < fuel)%nat →
              heapify_down_fuel fuel self index size st
              = heapify_down self index size st) as Hsame.
    { intros fuel Hlt. destruct (Hfuel fuel Hlt) as (st' & Hrun & _).
      destruct (Nat.le_ge_cases fuel (recursion_bound (contents (_arr self) st)))
        as [Hle|Hge].
      - symmetry. unfold heapify_down.
        apply heapify_down_fuel_mono; [by rewrite Hrun|done].
      - by apply heapify_down_total. }
    split; [|done].
    destruct (Hfuel (S (Z.to_nat (size - index)))) as (st' & Hrun & Hperm);
      [lia|].
    exists st'. split; [|done]. rewrite <- Hrun. symmetry. apply Hsame. lia.
  - intros [Hindex Hlt].
    destruct (heapify_down_step self st (Z.to_nat index) (Z.to_nat size))
      as (cum & Hcum & Hbest & Hstrict & Heval); [lia|].
    rewrite !Z2Nat.id in Heval by lia.
    assert (_left index = Z.of_nat (2 * Z.to_nat index + 1)) as Hleft
      by (unfold _left; lia).
    assert (_right index = Z.of_nat (2 * Z.to_nat index + 2)) as Hright
      by (unfold _right; lia).
    exists (Z.of_nat cum). rewrite Nat2Z.id.
    split; [lia|]. split; [|split; [|split]].
    + intros j xc xj Hj Hjs Hc Hxj.
      apply (Hbest (Z.to_nat j) xc xj); [lia|lia|done|done].
    + intros Hdom.
      destruct (decide (cum = Z.to_nat index)) as [E|E]; [lia|]. exfalso.
      destruct (lookup_lt_is_Some_2 (contents (_arr self) st) cum) as [xc Hxc];
        [lia|].
      destruct (lookup_lt_is_Some_2 (contents (_arr self) st) (Z.to_nat index))
        as [xi Hxi]; [lia|].
      specialize (Hstrict xc xi E Hxc Hxi).
      specialize (Hdom (Z.of_nat cum) xi xc).
      rewrite Nat2Z.id in Hdom.
      apply prior_true in Hstrict as [Hord Hne].
      assert (order (_is_min_heap self) xi xc) as Hord'
        by (apply Hdom; [lia|lia|done|done]).
      unfold order in *. destruct (_is_min_heap self); lia.
    + intros E. unfold heapify_down, recursion_bound. rewrite Heval.
      rewrite decide_True by lia. done.
    + intros E. split; [lia|].
      intros fuel. rewrite Heval. rewrite decide_False by lia. done.
Qed.

Lemma heapify_down_terminates_witness :
  let self := {| _arr := 0%nat; _is_min_heap := true |} in
  let st : store := {[ 0%nat := [5; 3; 8; 1] ]} in
  3 ≤ Z.of_nat (length (contents 0%nat st)) ∧
  heapify_down self 0 3 st ≠ OutOfFuel.
Proof.
  split; [vm_compute; congruence|].
  refine (proj1 (proj1 (heapify_down_terminates
            {| _arr := 0%nat; _is_min_heap := true |}
            {[ 0%nat := [5; 3; 8; 1] ]} 0 3 _))).
  vm_compute; congruence.
Defined.

(** C10.  [replace] on an empty heap raises [ValueError] with the message
    of the empty heap, whatever [oldValue] is and without changing the
    store; that error is not the "not found" error. *)
Theorem replace_on_empty_heap :
  ∀ self (st : store) (oldValue newValue : Z),
    contents (_arr self) st = [] →
    replace self oldValue newValue st = Raise (ValueError "Heap is empty") st ∧
    ValueError "Heap is empty"
    ≠ ValueError (pretty oldValue +:+ " not found in heap").
Proof.
  intros self st old new Hnil. split; [by apply replace_empty|].
  intros [= H]. by apply not_found_message in H.
Qed.

Lemma replace_on_empty_heap_witness :
  let self := {| _arr := 0%nat; _is_min_heap := false |} in
  let st : store := {[ 0%nat := [] ]} in
  contents 0%nat st = [] ∧
  replace self 4 2 st = Raise (ValueError "Heap is empty") st.
Proof.
  split; [reflexivity|].
  refine (proj1 (replace_on_empty_heap
            {| _arr := 0%nat; _is_min_heap := false |}
            {[ 0%nat := [] ]} 4 2 _)).
  reflexivity.
Defined.

(** * Further properties of the code *)

(** ** Helpers *)

Lemma order_antisym b x y : order b x y → order b y x → x = y.
Proof. unfold order. destruct b; lia. Qed.

Lemma heapify_up_stays self (st : store) (i : nat) :
  (∀ xi xp, (0 < i)%nat →
     contents (_arr self) st !! i = Some xi →
     contents (_arr self) st !! up i = Some xp →
     prior (_is_min_heap self) xi xp = false) →
  (i < length (contents (_arr self) st))%nat →
  heapify_up self (Z.of_nat i) st = Ok tt st.
Proof.
  intros Hstay Hi. unfold heapify_up. cbn [heapify_up_fuel]. rewrite gtb_nat.
  destruct (decide (0 < i)%nat) as [Hpos|Hpos].
  - rewrite (bool_decide_eq_true_2 _ Hpos), parent_nat by done.
    pose proof (up_lt i Hpos).
    destruct (lookup_lt_is_Some_2 (contents (_arr self) st) i) as [xi Hxi];
      [lia|].
    destruct (lookup_lt_is_Some_2 (contents (_arr self) st) (up i))
      as [xp Hxp]; [lia|].
    rewrite (bind_Ok _ _ _ _ _ (compare_nat self st _ _ _ _ Hxi Hxp)).
    by rewrite (Hstay xi xp Hpos Hxi Hxp).
  - by rewrite (bool_decide_eq_false_2 _ Hpos).
Qed.

Lemma push_appends self (st : store) (v : Z) :
  (∀ xp, contents (_arr self) st !! up (length (contents (_arr self) st))
         = Some xp →
         prior (_is_min_heap self) v xp = false) →
  ∃ st', push self v st = Ok tt st' ∧
         contents (_arr self) st' = contents (_arr self) st ++ [v].
Proof.
  intros Hstay. unfold push.
  set (arr := contents (_arr self) st) in *.
  set (st1 := <[_arr self := arr ++ [v]]> st).
  assert (list_append (_arr self) v st = Ok tt st1) as E1 by done.
  assert (contents (_arr self) st1 = arr ++ [v]) as Hst1
    by apply contents_insert.
  rewrite (then_Ok _ _ _ _ _ E1).
  erewrite bind_Ok by apply len_eval. rewrite Hst1.
  replace (Z.of_nat (length (arr ++ [v])) - 1) with (Z.of_nat (length arr))
    by (rewrite length_app; simpl; lia).
  exists st1. split; [|done].
  apply heapify_up_stays.
  - rewrite Hst1. intros xi xp Hpos Hxi Hxp.
    pose proof (up_lt _ Hpos).
    rewrite lookup_app_l in Hxp by done.
    rewrite lookup_app_r, Nat.sub_diag in Hxi by done.
    injection Hxi as <-. by apply Hstay.
  - rewrite Hst1, length_app. simpl. lia.
Qed.

Lemma run_op_length self (o : op) (st : store) :
  ∃ st',
    final_store (run_op self o st) = Some st' ∧
    length (contents (_arr self) st')
    = match o with
      | OpBuild | OpReplace _ _ => length (contents (_arr self) st)
      | OpPush _ => S (length (contents (_arr self) st))
      | OpPop => (length (contents (_arr self) st) - 1)%nat
      | OpPushPop _ => Nat.max (length (contents (_arr self) st)) 1
      | OpClear => 0%nat
      end.
Proof.
  destruct o as [|v| |v|old new|]; cbn [run_op].
  - destruct (build_heap_sound self st) as (st' & -> & _ & Hperm & _).
    exists st'. split; [done|]. by apply Permutation_length.
  - destruct (push_sound self st v) as (st' & -> & _ & Hperm & _).
    exists st'. split; [done|]. by apply Permutation_length in Hperm.
  - destruct (contents (_arr self) st) as [|root rest] eqn:Harr.
    + erewrite then_Raise by (by apply pop_empty).
      exists st. split; [done|]. by rewrite Harr.
    + destruct (pop_sound self st root rest Harr) as (st' & Hrun & _ & Hperm & _).
      erewrite then_Ok by done. exists st'. split; [done|].
      apply Permutation_length in Hperm. simpl. lia.
  - destruct (push_pop_sound self st v) as (r & st' & Hrun & _ & _ & Hd).
    erewrite then_Ok by done. exists st'. split; [done|].
    destruct (contents (_arr self) st) as [|root rest] eqn:Harr.
    + destruct Hd as [_ ->]. done.
    + destruct (push_pop_test _ v root).
      * destruct Hd as [_ Hperm]. apply Permutation_length in Hperm.
        rewrite Hperm. simpl. lia.
      * destruct Hd as [_ ->]. rewrite Harr. simpl. lia.
  - destruct (contents (_arr self) st) as [|root rest] eqn:Harr.
    + rewrite replace_empty by done. exists st. split; [done|]. by rewrite Harr.
    + destruct (find_index old (root :: rest)) as [k|] eqn:Hfind.
      * rewrite <- Harr in Hfind.
        destruct (replace_sound self st old new k Hfind)
          as (st' & -> & _ & Hperm & _).
        exists st'. split; [done|]. apply Permutation_length in Hperm.
        by rewrite Hperm, length_insert, Harr.
      * apply find_index_None in Hfind.
        rewrite replace_absent by (by rewrite Harr).
        exists st. split; [done|]. by rewrite Harr.
  - destruct (clear_sound self st) as (st' & -> & _ & Hnil).
    exists st'. split; [done|]. by rewrite Hnil.
Qed.

(** ** [push], [pop], the size, the positions, [clear] *)

(** X1.  [push] never fails.  It adds the value to the elements and
    changes no other list; on a heap it leaves a heap whose root is the
    value when the value has strict priority over the old root, and the old
    root otherwise.  When the value has no strict priority over the element
    at the parent of the new last position, the value just stays at the
    end. *)
Theorem push_adds_one_element :
  ∀ self (st : store) (value : Z),
    ∃ st',
      push self value st = Ok tt st' ∧
      contents (_arr self) st' ≡ₚ value :: contents (_arr self) st ∧
      (∀ l', l' ≠ _arr self → st' !! l' = st !! l') ∧
      (heap_inv (_is_min_heap self) (contents (_arr self) st) →
       heap_inv (_is_min_heap self) (contents (_arr self) st') ∧
       ∀ root, contents (_arr self) st !! 0%nat = Some root →
         contents (_arr self) st' !! 0%nat
         = Some (if prior (_is_min_heap self) value root then value
                 else root)) ∧
      ((∀ xp, contents (_arr self) st
              !! up (length (contents (_arr self) st)) = Some xp →
              prior (_is_min_heap self) value xp = false) →
       contents (_arr self) st' = contents (_arr self) st ++ [value]).
Proof.
  intros self st v.
  destruct (push_sound self st v) as (st' & Hrun & [Hframe _] & Hperm & Hinv).
  exists st'. split; [done|]. split; [done|]. split; [done|]. split.
  - intros Hheap. specialize (Hinv Hheap). split; [done|].
    intros root Hroot.
    destruct (contents (_arr self) st') as [|r' rest'] eqn:Harr'.
    { by apply Permutation_nil_cons in Hperm. }
    simpl. f_equal.
    destruct (contents (_arr self) st) as [|r rest] eqn:Harr; [done|].
    injection Hroot as ->.
    assert (∀ y, y ∈ v :: root :: rest → order (_is_min_heap self) r' y)
      as Hmin'.
    { intros y Hy. apply (heap_root_elem _ r' rest' y); [done|].
      by rewrite Hperm. }
    assert (∀ y, y ∈ root :: rest → order (_is_min_heap self) root y) as Hmin
      by (intros y Hy; by apply (heap_root_elem _ root rest y)).
    assert (r' ∈ v :: root :: rest) as Hin
      by (rewrite <- Hperm; apply list_elem_of_here).
    pose proof (Hmin' v ltac:(apply list_elem_of_here)) as Hv.
    pose proof (Hmin' root
                  ltac:(apply list_elem_of_further, list_elem_of_here))
      as Hr.
    apply elem_of_cons in Hin as [->|Hin].
    + destruct (prior (_is_min_heap self) v root) eqn:E; [done|].
      apply prior_false in E. by apply (order_antisym (_is_min_heap self)).
    + specialize (Hmin r' Hin).
      assert (r' = root) as -> by (by apply (order_antisym (_is_min_heap self))).
      destruct (prior (_is_min_heap self) v root) eqn:E; [|done].
      apply prior_true in E as [E Hne]. exfalso. apply Hne.
      by apply (order_antisym (_is_min_heap self)).
  - intros Hstay. destruct (push_appends self st v Hstay) as (st2 & Hrun2 & H2).
    rewrite Hrun in Hrun2. by injection Hrun2 as <-.
Qed.

(** X2.  [pop] on a non-empty heap returns the root, which has priority
    over every element (the minimum of a min-heap, the maximum of a
    max-heap); the other elements stay, in a heap, and no other list
    changes. *)
Theorem pop_returns_priority_extreme :
  ∀ self (st : store),
    heap_inv (_is_min_heap self) (contents (_arr self) st) →
    contents (_arr self) st ≠ [] →
    ∃ root st',
      pop self st = Ok root st' ∧
      contents (_arr self) st !! 0%nat = Some root ∧
      (∀ y, y ∈ contents (_arr self) st → order (_is_min_heap self) root y) ∧
      root :: contents (_arr self) st' ≡ₚ contents (_arr self) st ∧
      heap_inv (_is_min_heap self) (contents (_arr self) st') ∧
      (∀ l', l' ≠ _arr self → st' !! l' = st !! l').
Proof.
  intros self st Hheap Hne.
  destruct (contents (_arr self) st) as [|root rest] eqn:Harr; [done|].
  destruct (pop_sound self st root rest Harr)
    as (st' & Hrun & [Hframe _] & Hperm & Hinv).
  exists root, st'. split; [done|]. split; [done|].
  split; [intros y Hy; by apply (heap_root_elem _ root rest y)|].
  split; [by rewrite Hperm|]. split; [by apply Hinv|done].
Qed.

Lemma pop_returns_priority_extreme_witness :
  let self := {| _arr := 0%nat; _is_min_heap := true |} in
  let st : store := {[ 0%nat := [1; 3; 8; 5] ]} in
  ∃ root st',
    pop self st = Ok root st' ∧
    contents 0%nat st !! 0%nat = Some root ∧
    (∀ y, y ∈ contents 0%nat st → order true root y) ∧
    root :: contents 0%nat st' ≡ₚ contents 0%nat st ∧
    heap_inv true (contents 0%nat st') ∧
    (∀ l', l' ≠ 0%nat → st' !! l' = st !! l').
Proof.
  refine (pop_returns_priority_extreme
            {| _arr := 0%nat; _is_min_heap := true |}
            {[ 0%nat := [1; 3; 8; 5] ]} _ _).
  - apply heap_invb_spec. reflexivity.
  - vm_compute. discriminate.
Defined.

(** X3.  What every operation does to the size, as [len(heap)] and
    [bool(heap)] report it afterwards: [push] adds one; [pop] takes one
    away, and nothing from an empty heap, where it raises; [push_pop]
    keeps the size, except that on an empty heap it leaves the value in;
    [replace] and [build_heap] keep the size whether they return or raise;
    [clear] makes it zero.  [bool(heap)] is true exactly when the size is
    not zero. *)
Theorem operations_and_size :
  ∀ self (o : op) (st : store),
    ∃ st' (k : nat),
      final_store (run_op self o st) = Some st' ∧
      __len__ self st' = Ok (Z.of_nat k) st' ∧
      __bool__ self st' = Ok (negb (k =? 0)%nat) st' ∧
      k = match o with
          | OpBuild | OpReplace _ _ => length (contents (_arr self) st)
          | OpPush _ => S (length (contents (_arr self) st))
          | OpPop => (length (contents (_arr self) st) - 1)%nat
          | OpPushPop _ => Nat.max (length (contents (_arr self) st)) 1
          | OpClear => 0%nat
          end.
Proof.
  intros self o st.
  destruct (run_op_length self o st) as (st' & Hrun & Hlen).
  exists st', (length (contents (_arr self) st')).
  split; [done|]. split; [done|]. split; [|done].
  unfold __bool__. erewrite bind_Ok by apply is_empty_eval.
  unfold mret, M_ret. f_equal.
  destruct (contents (_arr self) st'); by case_bool_decide.
Qed.

(** X4.  Positions: the parent of the left child and of the right child
    of any index is that index; a left child is never a right child;
    every positive index is a child of its parent, which lies below it
    and is not negative; the parent of 0 is -1. *)
Theorem parent_child_round_trip :
  (∀ i, _parent (_left i) = i ∧ _parent (_right i) = i) ∧
  (∀ i j, _left i ≠ _right j) ∧
  (∀ i, 0 < i →
     0 ≤ _parent i < i ∧
     (_left (_parent i) = i ∨ _right (_parent i) = i)) ∧
  _parent 0 = -1.
Proof.
  unfold _parent, _left, _right.
  split; [|split; [|split; [|done]]].
  - intros i. split.
    + replace (i * 2 + 1 - 1) with (i * 2) by lia. apply Z.div_mul. done.
    + replace (i * 2 + 2 - 1) with (1 + i * 2) by lia.
      rewrite Z.div_add by done. done.
  - intros i j. lia.
  - intros i Hi.
    pose proof (Z.div_mod (i - 1) 2 ltac:(done)) as E.
    pose proof (Z.mod_pos_bound (i - 1) 2 ltac:(done)) as B.
    lia.
Qed.

(** X5.  [clear] empties the heap whatever it held and changes no other
    list.  Afterwards [is_empty] answers true, [pop] raises its
    [IndexError], [replace] raises "Heap is empty", and a [push] makes the
    value the only element. *)
Theorem clear_empties_the_heap :
  ∀ self (st : store),
    ∃ st',
      clear self st = Ok tt st' ∧
      contents (_arr self) st' = [] ∧
      (∀ l', l' ≠ _arr self → st' !! l' = st !! l') ∧
      is_empty self st' = Ok true st' ∧
      pop self st' = Raise (IndexError "Pop from empty heap") st' ∧
      (∀ oldValue newValue,
         replace self oldValue newValue st'
         = Raise (ValueError "Heap is empty") st') ∧
      ∀ value, ∃ st'', push self value st' = Ok tt st'' ∧
                       contents (_arr self) st'' = [value].
Proof.
  intros self st.
  destruct (clear_sound self st) as (st' & Hrun & [Hframe _] & Hnil).
  exists st'. split; [done|]. split; [done|]. split; [done|].
  split; [by rewrite is_empty_eval, bool_decide_eq_true_2|].
  split; [by apply pop_empty|]. split; [intros; by apply replace_empty|].
  intros v. destruct (push_sound self st' v) as (st'' & Hpush & _ & Hperm & _).
  exists st''. split; [done|]. rewrite Hnil in Hperm.
  by apply Permutation_singleton_r.
Qed.

(** ** [_swap] and [_compare] on any subscripts *)

Lemma resolve_index_position (n : nat) (i : Z) :
  valid_index n i → resolve_index n i = Some (position n i) ∧
                    (position n i < n)%nat.
Proof.
  unfold valid_index, resolve_index, position. intros H.
  destruct (Z.leb_spec 0 i); destruct (Z.ltb_spec i (Z.of_nat n));
    destruct (Z.leb_spec (- Z.of_nat n) i); destruct (Z.ltb_spec i 0);
    simpl; try lia; (split; [done|lia]).
Qed.

Lemma resolve_index_invalid (n : nat) (i : Z) :
  ¬ valid_index n i → resolve_index n i = None.
Proof.
  unfold valid_index, resolve_index. intros H.
  destruct (Z.leb_spec 0 i); destruct (Z.ltb_spec i (Z.of_nat n));
    destruct (Z.leb_spec (- Z.of_nat n) i); destruct (Z.ltb_spec i 0);
    simpl; try lia; done.
Qed.

Lemma getitem_valid l (st : store) (i : Z) :
  valid_index (length (contents l st)) i →
  ∃ x, contents l st !! position (length (contents l st)) i = Some x ∧
       list_getitem l i st = Ok x st.
Proof.
  intros H. destruct (resolve_index_position _ _ H) as [E Hlt].
  destruct (lookup_lt_is_Some_2 (contents l st) _ Hlt) as [x Hx].
  exists x. split; [done|]. unfold list_getitem. rewrite E. simpl.
  by rewrite Hx.
Qed.

Lemma getitem_invalid l (st : store) (i : Z) :
  ¬ valid_index (length (contents l st)) i →
  list_getitem l i st = Raise (IndexError "list index out of range") st.
Proof.
  intros H. unfold list_getitem. by rewrite resolve_index_invalid.
Qed.

Lemma setitem_valid l (st : store) (i v : Z) :
  valid_index (length (contents l st)) i →
  list_setitem l i v st
  = Ok tt (<[l := <[position (length (contents l st)) i := v]>
                    (contents l st)]> st).
Proof.
  intros H. destruct (resolve_index_position _ _ H) as [E Hlt].
  unfold list_setitem. by rewrite E.
Qed.

Lemma swap_valid self (st : store) (a b : Z) :
  valid_index (length (contents (_arr self) st)) a →
  valid_index (length (contents (_arr self) st)) b →
  _swap self a b st
  = Ok tt (<[_arr self :=
              exchange (contents (_arr self) st)
                (position (length (contents (_arr self) st)) a)
                (position (length (contents (_arr self) st)) b)]> st).
Proof.
  intros Ha Hb. unfold _swap.
  destruct (getitem_valid _ st b Hb) as (y & Hy & Eb).
  destruct (getitem_valid _ st a Ha) as (x & Hx & Ea).
  rewrite (bind_Ok _ _ _ _ _ Eb), (bind_Ok _ _ _ _ _ Ea).
  erewrite then_Ok by (by apply setitem_valid).
  rewrite setitem_valid
    by (by rewrite contents_insert, length_insert).
  rewrite contents_insert, length_insert, insert_insert_eq.
  unfold exchange. by rewrite Hx, Hy.
Qed.

Lemma exchange_involutive (arr : list Z) (a b : nat) :
  exchange (exchange arr a b) a b = arr.
Proof.
  destruct (arr !! a) as [x|] eqn:Ha; [|by unfold exchange; rewrite Ha, Ha].
  destruct (arr !! b) as [y|] eqn:Hb;
    [|unfold exchange; rewrite Ha, Hb; by rewrite Ha, Hb].
  destruct (exchange_lookup _ _ _ _ _ Ha Hb) as (Ea & Eb & Eo).
  destruct (exchange_lookup _ _ _ _ _ Ea Eb) as (Ea' & Eb' & Eo').
  apply list_eq. intros j.
  destruct (decide (j = a)) as [->|Hja]; [by rewrite Ea'|].
  destruct (decide (j = b)) as [->|Hjb]; [by rewrite Eb'|].
  by rewrite Eo', Eo.
Qed.

(** X6.  [_swap] either exchanges or raises, never half of it.  On two
    valid subscripts (negative ones count from the end) it exchanges the
    two elements and nothing else, so the elements stay the same multiset,
    and doing it again restores the list.  When one of the subscripts is
    out of range it raises [IndexError] and the store is as before. *)
Theorem swap_exchanges_or_raises :
  ∀ self (st : store) (a b : Z),
    (valid_index (length (contents (_arr self) st)) a →
     valid_index (length (contents (_arr self) st)) b →
     ∃ st' st'',
       _swap self a b st = Ok tt st' ∧
       contents (_arr self) st'
       = exchange (contents (_arr self) st)
           (position (length (contents (_arr self) st)) a)
           (position (length (contents (_arr self) st)) b) ∧
       contents (_arr self) st' ≡ₚ contents (_arr self) st ∧
       (∀ l', l' ≠ _arr self → st' !! l' = st !! l') ∧
       _swap self a b st' = Ok tt st'' ∧
       contents (_arr self) st'' = contents (_arr self) st) ∧
    (¬ (valid_index (length (contents (_arr self) st)) a ∧
        valid_index (length (contents (_arr self) st)) b) →
     _swap self a b st = Raise (IndexError "list index out of range") st).
Proof.
  intros self st a b. split.
  - intros Ha Hb.
    pose proof (swap_valid self st a b Ha Hb) as E1.
    set (arr := contents (_arr self) st) in *.
    set (st' := <[_arr self := exchange arr _ _]> st) in *.
    assert (contents (_arr self) st'
            = exchange arr (position (length arr) a) (position (length arr) b))
      as Hst' by apply contents_insert.
    assert (length (contents (_arr self) st') = length arr) as Hlen
      by (by rewrite Hst', exchange_length).
    pose proof (swap_valid self st' a b) as E2. rewrite Hlen in E2.
    specialize (E2 Ha Hb).
    eexists st', _. split; [done|]. split; [done|].
    split; [rewrite Hst'; apply exchange_Permutation|].
    split; [intros l' Hl'; unfold st'; by rewrite lookup_insert_ne|].
    split; [exact E2|].
    by rewrite contents_insert, Hst', exchange_involutive.
  - intros Hinv. unfold _swap.
    destruct (decide (valid_index (length (contents (_arr self) st)) b))
      as [Hb|Hb].
    + destruct (getitem_valid _ st b Hb) as (y & _ & Eb).
      rewrite (bind_Ok _ _ _ _ _ Eb).
      apply bind_Raise, getitem_invalid. tauto.
    + by apply bind_Raise, getitem_invalid.
Qed.

Lemma swap_exchanges_or_raises_witness :
  let self := {| _arr := 0%nat; _is_min_heap := false |} in
  let st : store := {[ 0%nat := [4; 5; 6] ]} in
  (∃ st' st'',
     _swap self (-1) 0 st = Ok tt st' ∧
     contents 0%nat st' = exchange [4; 5; 6] 2 0 ∧
     contents 0%nat st' ≡ₚ [4; 5; 6] ∧
     (∀ l', l' ≠ 0%nat → st' !! l' = st !! l') ∧
     _swap self (-1) 0 st' = Ok tt st'' ∧
     contents 0%nat st'' = [4; 5; 6]) ∧
  _swap self 3 0 st = Raise (IndexError "list index out of range") st.
Proof.
  split.
  - refine (proj1 (swap_exchanges_or_raises
                     {| _arr := 0%nat; _is_min_heap := false |}
                     {[ 0%nat := [4; 5; 6] ]} (-1) 0) _ _);
      vm_compute; split; congruence.
  - refine (proj2 (swap_exchanges_or_raises
                     {| _arr := 0%nat; _is_min_heap := false |}
                     {[ 0%nat := [4; 5; 6] ]} 3 0) _).
    vm_compute. intros [[_ H] _]. discriminate H.
Defined.

(** X7.  [_compare] is a strict comparison of two elements that reads and
    never writes.  On valid subscripts it answers whether the first element
    has strictly higher priority: never for an element against itself,
    never in both directions, and in neither direction only when the two
    elements are equal.  A min-heap compares as a max-heap does with the
    arguments exchanged.  On a subscript out of range it raises
    [IndexError]. *)
Theorem compare_is_strict :
  ∀ self (st : store) (a b : Z),
    (valid_index (length (contents (_arr self) st)) a →
     valid_index (length (contents (_arr self) st)) b →
     ∃ x y (ab ba : bool),
       contents (_arr self) st
       !! position (length (contents (_arr self) st)) a = Some x ∧
       contents (_arr self) st
       !! position (length (contents (_arr self) st)) b = Some y ∧
       _compare self a b st = Ok ab st ∧
       _compare self b a st = Ok ba st ∧
       _compare self a a st = Ok false st ∧
       (ab = true → ba = false) ∧
       (ab = false → ba = false → x = y) ∧
       (ab = true ↔ if _is_min_heap self then x < y else y < x)) ∧
    (¬ (valid_index (length (contents (_arr self) st)) a ∧
        valid_index (length (contents (_arr self) st)) b) →
     _compare self a b st = Raise (IndexError "list index out of range") st) ∧
    _compare {| _arr := _arr self; _is_min_heap := true |} a b st
    = _compare {| _arr := _arr self; _is_min_heap := false |} b a st.
Proof.
  intros self st a b. split; [|split].
  - intros Ha Hb.
    destruct (getitem_valid _ st a Ha) as (x & Hx & Ea).
    destruct (getitem_valid _ st b Hb) as (y & Hy & Eb).
    assert (∀ u v p q, list_getitem (_arr self) p st = Ok u st →
              list_getitem (_arr self) q st = Ok v st →
              _compare self p q st = Ok (prior (_is_min_heap self) u v) st)
      as Hcmp.
    { intros u v p q Ep Eq. unfold _compare, prior.
      destruct (_is_min_heap self);
        by rewrite (bind_Ok _ _ _ _ _ Ep), (bind_Ok _ _ _ _ _ Eq). }
    exists x, y, (prior (_is_min_heap self) x y),
      (prior (_is_min_heap self) y x).
    split; [done|]. split; [done|]. split; [by apply Hcmp|].
    split; [by apply Hcmp|]. split.
    { rewrite (Hcmp x x a a Ea Ea). f_equal.
      unfold prior. destruct (_is_min_heap self); lia. }
    unfold prior. destruct (_is_min_heap self); (split; [lia|split; lia]).
  - intros Hinv. unfold _compare.
    assert (bind (list_getitem (_arr self) a)
              (λ x, bind (list_getitem (_arr self) b) (λ y, mret (x <? y))) st
            = Raise (IndexError "list index out of range") st ∧
            bind (list_getitem (_arr self) a)
              (λ x, bind (list_getitem (_arr self) b) (λ y, mret (x >? y))) st
            = Raise (IndexError "list index out of range") st) as [E1 E2].
    { destruct (decide (valid_index (length (contents (_arr self) st)) a))
        as [Ha|Ha].
      - destruct (getitem_valid _ st a Ha) as (x & _ & Ea).
        rewrite !(bind_Ok _ _ _ _ _ Ea).
        split; apply bind_Raise, getitem_invalid; tauto.
      - split; by apply bind_Raise, getitem_invalid. }
    by destruct (_is_min_heap self).
  - assert (∀ i e st', list_getitem (_arr self) i st = Raise e st' →
              e = IndexError "list index out of range" ∧ st' = st) as Hraise.
    { intros i e st' E. unfold list_getitem in E.
      destruct (resolve_index _ i ≫= _); [done|]. by injection E as <- <-. }
    unfold _compare, bind. simpl.
    destruct (list_getitem (_arr self) a st) as [x st1|e1 st1|] eqn:Ea;
      [| |by apply getitem_fuel in Ea].
    + destruct (getitem_inv _ _ _ _ _ Ea) as [-> _].
      destruct (list_getitem (_arr self) b st) as [y st2|e2 st2|] eqn:Eb;
        [| |by apply getitem_fuel in Eb].
      * destruct (getitem_inv _ _ _ _ _ Eb) as [-> _].
        rewrite Ea. unfold mret, M_ret. by rewrite Z.gtb_ltb.
      * done.
    + destruct (Hraise _ _ _ Ea) as [-> ->].
      destruct (list_getitem (_arr self) b st) as [y st2|e2 st2|] eqn:Eb;
        [| |by apply getitem_fuel in Eb].
      * destruct (getitem_inv _ _ _ _ _ Eb) as [-> _]. by rewrite Ea.
      * by destruct (Hraise _ _ _ Eb) as [-> ->].
Qed.

Lemma compare_is_strict_witness :
  let self := {| _arr := 0%nat; _is_min_heap := true |} in
  let st : store := {[ 0%nat := [4; 5; 6] ]} in
  (∃ ab, _compare self 0 (-1) st = Ok ab st ∧
         _compare self 0 0 st = Ok false st) ∧
  _compare self 0 3 st = Raise (IndexError "list index out of range") st.
Proof.
  split.
  - destruct (proj1 (compare_is_strict
                       {| _arr := 0%nat; _is_min_heap := true |}
                       {[ 0%nat := [4; 5; 6] ]} 0 (-1)))
      as (x & y & ab & ba & _ & _ & E & _ & E0 & _);
      [vm_compute; split; congruence..|].
    exists ab. split; [exact E|exact E0].
  - refine (proj1 (proj2 (compare_is_strict
                            {| _arr := 0%nat; _is_min_heap := true |}
                            {[ 0%nat := [4; 5; 6] ]} 0 3)) _).
    vm_compute. intros [_ [_ H]]. discriminate H.
Defined.

(** ** The two sifts *)

Lemma heapify_down_fuel_outside self (fuel : nat) :
  ∀ (st st' : store) (i n : nat),
    (i < n ≤ length (contents (_arr self) st))%nat →
    heapify_down_fuel fuel self (Z.of_nat i) (Z.of_nat n) st = Ok tt st' →
    ∀ j, (j < i ∨ n ≤ j)%nat →
      contents (_arr self) st' !! j = contents (_arr self) st !! j.
Proof.
  induction fuel as [|fuel IH]; intros st st' i n Hin Hrun j Hj; [done|].
  destruct (heapify_down_step self st i n Hin) as (cum & Hcum & _ & _ & Heval).
  rewrite Heval in Hrun. clear Heval.
  destruct (decide (cum = i)) as [Heq|Hne]; [by injection Hrun as <-|].
  destruct (lookup_lt_is_Some_2 (contents (_arr self) st) i) as [xi Hxi];
    [lia|].
  destruct (lookup_lt_is_Some_2 (contents (_arr self) st) cum) as [xc Hxc];
    [lia|].
  erewrite then_Ok in Hrun by (by eapply swap_nat).
  destruct (exchange_lookup _ _ _ _ _ Hxi Hxc) as (_ & _ & Eo).
  set (st1 := <[_arr self := _]> st) in Hrun.
  assert (cum < n ≤ length (contents (_arr self) st1))%nat as Hin1
    by (unfold st1; rewrite contents_insert, exchange_length; lia).
  rewrite (IH st1 st' cum n Hin1 Hrun j) by lia.
  unfold st1. rewrite contents_insert. apply Eo; lia.
Qed.

Lemma heapify_down_stays self (st : store) (i n : nat) :
  (i < n ≤ length (contents (_arr self) st))%nat →
  (∀ c xi xc, (c = 2 * i + 1 ∨ c = 2 * i + 2)%nat → (c < n)%nat →
     contents (_arr self) st !! i = Some xi →
     contents (_arr self) st !! c = Some xc →
     order (_is_min_heap self) xi xc) →
  heapify_down self (Z.of_nat i) (Z.of_nat n) st = Ok tt st.
Proof.
  intros Hin Hdom.
  destruct (heapify_down_step self st i n Hin)
    as (cum & Hcum & _ & Hstrict & Heval).
  unfold heapify_down, recursion_bound. rewrite Heval.
  destruct (decide (cum = i)) as [Heq|Hne]; [done|]. exfalso.
  destruct (lookup_lt_is_Some_2 (contents (_arr self) st) i) as [xi Hxi];
    [lia|].
  destruct (lookup_lt_is_Some_2 (contents (_arr self) st) cum) as [xc Hxc];
    [lia|].
  specialize (Hstrict xc xi Hne Hxc Hxi). apply prior_true in Hstrict as [Ho Hd].
  apply Hd. apply (order_antisym (_is_min_heap self)); [done|].
  apply (Hdom cum); [lia|lia|done|done].
Qed.

(** X8.  The contract of [heapify_down] at a position below the logical
    size: it returns, keeps the elements as a multiset, and writes to no
    position before the index or at or beyond the logical size, and to no
    other list.  When the element at the index has priority over its
    children below the size, nothing moves.  When every parent from [lo]
    on, other than the index, is in order with its children, and the
    parent of the index has priority over the children of the index, then
    afterwards every parent from [lo] on is in order with its children. *)
Theorem heapify_down_contract :
  ∀ self (st : store) (i n : nat),
    (i < n ≤ length (contents (_arr self) st))%nat →
    ∃ st',
      heapify_down self (Z.of_nat i) (Z.of_nat n) st = Ok tt st' ∧
      contents (_arr self) st' ≡ₚ contents (_arr self) st ∧
      (∀ l', l' ≠ _arr self → st' !! l' = st !! l') ∧
      (∀ j, (j < i ∨ n ≤ j)%nat →
         contents (_arr self) st' !! j = contents (_arr self) st !! j) ∧
      ((∀ c xi xc, (c = 2 * i + 1 ∨ c = 2 * i + 2)%nat → (c < n)%nat →
          contents (_arr self) st !! i = Some xi →
          contents (_arr self) st !! c = Some xc →
          order (_is_min_heap self) xi xc) →
       st' = st) ∧
      ∀ lo,
        edges (_is_min_heap self) (contents (_arr self) st) n
          (λ p _, lo ≤ p ∧ p ≠ i)%nat →
        ((0 < i)%nat → (lo ≤ up i)%nat →
         covers (_is_min_heap self) (contents (_arr self) st) n (up i) i) →
        edges (_is_min_heap self) (contents (_arr self) st') n
          (λ p _, lo ≤ p)%nat.
Proof.
  intros self st i n Hin.
  destruct (heapify_down_sound self st i n Hin)
    as (st' & Hrun & [Hframe _] & Hperm & _ & Hinv).
  exists st'. split; [done|]. split; [done|]. split; [done|].
  split; [|split; [|done]].
  - intros j Hj.
    by apply (heapify_down_fuel_outside self
                (recursion_bound (contents (_arr self) st)) st st' i n).
  - intros Hdom. rewrite (heapify_down_stays self st i n Hin Hdom) in Hrun.
    by injection Hrun as <-.
Qed.

Lemma heapify_down_contract_witness :
  let self := {| _arr := 0%nat; _is_min_heap := true |} in
  let st : store := {[ 0%nat := [7; 3; 8; 5; 4; 1] ]} in
  (0 < 5 ≤ length (contents 0%nat st))%nat ∧
  ∃ st',
    heapify_down self 0 5 st = Ok tt st' ∧
    contents 0%nat st' ≡ₚ contents 0%nat st ∧
    contents 0%nat st' !! 5%nat = Some 1.
Proof.
  split; [vm_compute; lia|].
  destruct (heapify_down_contract
              {| _arr := 0%nat; _is_min_heap := true |}
              {[ 0%nat := [7; 3; 8; 5; 4; 1] ]} 0 5)
    as (st' & Hrun & Hperm & _ & Hout & _); [vm_compute; lia|].
  exists st'. split; [exact Hrun|]. split; [exact Hperm|].
  refine (eq_trans (Hout 5%nat _) _); [lia|reflexivity].
Defined.

(** X9.  The contract of [heapify_up] at a position of the list: it
    returns, keeps the elements as a multiset and writes to no other list.
    When the element at the index has no strict priority over its parent,
    nothing moves.  When every child other than the index is in order with
    its parent, and the parent of the index has priority over the children
    of the index, the list is a heap afterwards. *)
Theorem heapify_up_contract :
  ∀ self (st : store) (i : nat),
    (i < length (contents (_arr self) st))%nat →
    ∃ st',
      heapify_up self (Z.of_nat i) st = Ok tt st' ∧
      contents (_arr self) st' ≡ₚ contents (_arr self) st ∧
      (∀ l', l' ≠ _arr self → st' !! l' = st !! l') ∧
      ((∀ xi xp, (0 < i)%nat →
          contents (_arr self) st !! i = Some xi →
          contents (_arr self) st !! up i = Some xp →
          prior (_is_min_heap self) xi xp = false) →
       st' = st) ∧
      (edges (_is_min_heap self) (contents (_arr self) st)
         (length (contents (_arr self) st)) (λ _ c, c ≠ i) →
       ((0 < i)%nat →
        covers (_is_min_heap self) (contents (_arr self) st)
          (length (contents (_arr self) st)) (up i) i) →
       heap_inv (_is_min_heap self) (contents (_arr self) st')).
Proof.
  intros self st i Hi.
  destruct (heapify_up_sound self st i Hi)
    as (st' & Hrun & [Hframe _] & Hperm & Hinv).
  exists st'. split; [done|]. split; [done|]. split; [done|]. split.
  - intros Hstay. rewrite (heapify_up_stays self st i Hstay Hi) in Hrun.
    by injection Hrun as <-.
  - intros Hpre Hcov. apply heap_inv_edges.
    replace (length (contents (_arr self) st'))
      with (length (contents (_arr self) st))
      by (symmetry; by apply Permutation_length).
    by apply Hinv.
Qed.

Lemma heapify_up_contract_witness :
  let self := {| _arr := 0%nat; _is_min_heap := true |} in
  let st : store := {[ 0%nat := [2; 3; 8; 1] ]} in
  (3 < length (contents 0%nat st))%nat ∧
  ∃ st',
    heapify_up self 3 st = Ok tt st' ∧
    contents 0%nat st' ≡ₚ contents 0%nat st.
Proof.
  split; [vm_compute; lia|].
  destruct (heapify_up_contract
              {| _arr := 0%nat; _is_min_heap := true |}
              {[ 0%nat := [2; 3; 8; 1] ]} 3)
    as (st' & Hrun & Hperm & _); [vm_compute; lia|].
  exists st'. split; [exact Hrun|exact Hperm].
Defined.

(** X10.  Edge cases of the two sifts, all without any write.
    [heapify_up] from an index that is not positive returns at once; from
    a positive index beyond the list it raises [IndexError].
    [heapify_down] from a non-negative index whose left child is not below
    the size returns at once; when that child is below the size but beyond
    the list it raises [IndexError]. *)
Theorem sift_edge_cases :
  ∀ self (st : store) (index size : Z),
    (index ≤ 0 → heapify_up self index st = Ok tt st) ∧
    (0 < index → Z.of_nat (length (contents (_arr self) st)) ≤ index →
     heapify_up self index st
     = Raise (IndexError "list index out of range") st) ∧
    (0 ≤ index → size ≤ _left index →
     heapify_down self index size st = Ok tt st) ∧
    (0 ≤ index →
     Z.of_nat (length (contents (_arr self) st)) ≤ _left index < size →
     heapify_down self index size st
     = Raise (IndexError "list index out of range") st).
Proof.
  intros self st index size. split; [|split; [|split]].
  - intros Hi. unfold heapify_up. cbn [heapify_up_fuel].
    destruct (Z.gtb_spec index 0); [lia|done].
  - intros Hpos Hlen. unfold heapify_up. cbn [heapify_up_fuel].
    destruct (Z.gtb_spec index 0); [|lia].
    apply bind_Raise. unfold _compare.
    destruct (_is_min_heap self);
      apply bind_Raise, getitem_invalid; unfold valid_index; lia.
  - intros Hi Hleaf. unfold heapify_down, recursion_bound.
    cbn [heapify_down_fuel]. unfold and_then.
    destruct (Z.ltb_spec (_left index) size); [lia|].
    destruct (Z.ltb_spec (_right index) size);
      [unfold _left, _right in *; lia|].
    unfold bind, mret, M_ret. by rewrite Z.eqb_refl.
  - intros Hi Hout. unfold heapify_down, recursion_bound.
    cbn [heapify_down_fuel]. unfold and_then.
    destruct (Z.ltb_spec (_left index) size); [|lia].
    apply bind_Raise. unfold _compare.
    destruct (_is_min_heap self);
      apply bind_Raise, getitem_invalid; unfold valid_index; lia.
Qed.

Lemma sift_edge_cases_witness :
  let self := {| _arr := 0%nat; _is_min_heap := true |} in
  let st : store := {[ 0%nat := [4; 5; 6] ]} in
  heapify_up self (-3) st = Ok tt st ∧
  heapify_up self 7 st = Raise (IndexError "list index out of range") st ∧
  heapify_down self 1 3 st = Ok tt st ∧
  heapify_down self 2 6 st = Raise (IndexError "list index out of range") st.
Proof.
  destruct (sift_edge_cases
              {| _arr := 0%nat; _is_min_heap := true |}
              {[ 0%nat := [4; 5; 6] ]} (-3) 0) as (H1 & _).
  destruct (sift_edge_cases
              {| _arr := 0%nat; _is_min_heap := true |}
              {[ 0%nat := [4; 5; 6] ]} 7 0) as (_ & H2 & _).
  destruct (sift_edge_cases
              {| _arr := 0%nat; _is_min_heap := true |}
              {[ 0%nat := [4; 5; 6] ]} 1 3) as (_ & _ & H3 & _).
  destruct (sift_edge_cases
              {| _arr := 0%nat; _is_min_heap := true |}
              {[ 0%nat := [4; 5; 6] ]} 2 6) as (_ & _ & _ & H4).
  split; [apply H1; lia|]. split; [apply H2; [lia|vm_compute; congruence]|].
  split; [apply H3; [lia|vm_compute; congruence]|].
  apply H4; [lia|vm_compute; split; congruence].
Defined.

(** ** [build_heap] and the constructor on a heap *)

Lemma build_heap_loop_stays self (m : nat) (st : store) :
  heap_inv (_is_min_heap self) (contents (_arr self) st) →
  (2 * m ≤ length (contents (_arr self) st))%nat →
  for_each (range_down (Z.of_nat m - 1) (-1))
    (λ i, let* n := size self in heapify_down self i n) st = Ok tt st.
Proof.
  intros Hheap. induction m as [|m IH]; intros Hm.
  - by rewrite range_down_nil.
  - rewrite range_down_cons by lia.
    replace (Z.of_nat (S m) - 1) with (Z.of_nat m) by lia.
    cbn [for_each]. erewrite then_Ok; [apply IH; lia|].
    unfold size. erewrite bind_Ok by apply len_eval.
    apply heapify_down_stays; [lia|].
    intros c xi xc Hc _ Hxi Hxc. by apply (Hheap m c).
Qed.

Lemma build_heap_stays self (st : store) :
  heap_inv (_is_min_heap self) (contents (_arr self) st) →
  build_heap self st = Ok tt st.
Proof.
  intros Hheap. unfold build_heap, size.
  erewrite bind_Ok by apply len_eval.
  replace (Z.of_nat (length (contents (_arr self) st)) `div` 2)
    with (Z.of_nat (length (contents (_arr self) st) / 2))
    by (by rewrite Nat2Z.inj_div).
  apply build_heap_loop_stays; [done|].
  pose proof (Nat.div_mod_eq (length (contents (_arr self) st)) 2). lia.
Qed.

(** X11.  On a list that is a heap already, [build_heap] moves nothing:
    the store is left exactly as it was, and the constructor stores a copy
    of the list in the same order.  So a heap constructed from the
    [items] of a heap has the same storage as that heap, which stays as
    it is. *)
Theorem build_heap_keeps_a_heap :
  (∀ self (st : store),
     heap_inv (_is_min_heap self) (contents (_arr self) st) →
     build_heap self st = Ok tt st) ∧
  (∀ (st0 : store) (src : loc) (isMinHeap : bool),
     heap_inv isMinHeap (contents src st0) →
     ∃ self st,
       __init__ src isMinHeap st0 = Ok self st ∧
       contents (_arr self) st = contents src st0) ∧
  (∀ self (st : store),
     heap_inv (_is_min_heap self) (contents (_arr self) st) →
     is_Some (st !! _arr self) →
     ∃ l' st1 self' st2,
       items self st = Ok l' st1 ∧
       __init__ l' (_is_min_heap self) st1 = Ok self' st2 ∧
       _arr self' ≠ _arr self ∧
       contents (_arr self') st2 = contents (_arr self) st ∧
       st2 !! _arr self = st !! _arr self).
Proof.
  assert (∀ (st0 : store) (src : loc) (b : bool),
            heap_inv b (contents src st0) →
            __init__ src b st0
            = Ok {| _arr := fresh (dom st0); _is_min_heap := b |}
                (<[fresh (dom st0) := contents src st0]> st0)) as Hinit.
  { intros st0 src b Hheap. unfold __init__.
    assert (list_copy src st0
            = Ok (fresh (dom st0))
                (<[fresh (dom st0) := contents src st0]> st0)) as E by done.
    rewrite (bind_Ok _ _ _ _ _ E).
    erewrite then_Ok; [done|].
    apply build_heap_stays. simpl. by rewrite contents_insert. }
  split; [apply build_heap_stays|]. split.
  - intros st0 src b Hheap. eexists _, _. split; [by apply Hinit|].
    simpl. by rewrite contents_insert.
  - intros self st Hheap Hal.
    set (l' := fresh (dom st)).
    set (st1 := <[l' := contents (_arr self) st]> st).
    assert (l' ≠ _arr self) as Hne.
    { intros E. apply (is_fresh (dom st)). change (l' ∈ dom st).
      apply elem_of_dom. by rewrite E. }
    assert (contents l' st1 = contents (_arr self) st) as Hl'
      by apply contents_insert.
    set (l2 := fresh (dom st1)).
    assert (l2 ≠ _arr self) as Hne2.
    { intros E. apply (is_fresh (dom st1)). change (l2 ∈ dom st1).
      apply elem_of_dom. rewrite E. unfold st1.
      by rewrite lookup_insert_ne. }
    exists l', st1, {| _arr := l2; _is_min_heap := _is_min_heap self |},
      (<[l2 := contents l' st1]> st1).
    split; [done|]. split; [apply Hinit; by rewrite Hl'|].
    split; [done|]. split; [simpl; by rewrite contents_insert|].
    rewrite lookup_insert_ne by done. unfold st1.
    by rewrite lookup_insert_ne.
Qed.

Lemma build_heap_keeps_a_heap_witness :
  let self := {| _arr := 0%nat; _is_min_heap := false |} in
  let st : store := {[ 0%nat := [9; 4; 7; 1] ]} in
  heap_invb false (contents 0%nat st) = true ∧
  build_heap self st = Ok tt st.
Proof.
  split; [reflexivity|].
  refine (proj1 build_heap_keeps_a_heap
            {| _arr := 0%nat; _is_min_heap := false |}
            {[ 0%nat := [9; 4; 7; 1] ]} _).
  apply heap_invb_spec. reflexivity.
Defined.

(** ** How the operations compose *)

Lemma push_all_sound self (xs : list Z) :
  ∀ st : store,
    ∃ st',
      for_each xs (push self) st = Ok tt st' ∧
      contents (_arr self) st' ≡ₚ xs ++ contents (_arr self) st ∧
      (∀ l', l' ≠ _arr self → st' !! l' = st !! l') ∧
      (heap_inv (_is_min_heap self) (contents (_arr self) st) →
       heap_inv (_is_min_heap self) (contents (_arr self) st')).
Proof.
  induction xs as [|x xs IH]; intros st.
  - exists st. by repeat split.
  - cbn [for_each].
    destruct (push_sound self st x) as (st1 & Hrun & [Hf1 _] & Hperm & Hinv).
    destruct (IH st1) as (st' & Hrun' & Hperm' & Hf' & Hinv').
    rewrite (then_Ok _ _ _ _ _ Hrun).
    exists st'. split; [done|]. split; [|split].
    + rewrite Hperm', Hperm. simpl. by rewrite Permutation_middle.
    + intros l' Hl'. by rewrite Hf', Hf1.
    + auto.
Qed.

Lemma elem_of_insert_inv (l : list Z) (k : nat) (v x : Z) :
  x ∈ <[k := v]> l → x = v ∨ x ∈ l.
Proof.
  intros [j Hj]%list_elem_of_lookup.
  apply list_lookup_insert_Some in Hj as [(-> & -> & _)|[_ Hj]]; [by left|].
  right. apply list_elem_of_lookup. eauto.
Qed.

(** X12.  [push_pop] where it is not [push] followed by [pop].  On an
    empty heap it returns the value and keeps it in the heap, whereas
    [push] followed by [pop] returns it and leaves the heap empty.  On a
    non-empty max-heap it returns the old root whatever the value is and
    puts the value into the heap, which stays a heap: there it does what
    [pop] followed by [push] does. *)
Theorem push_pop_on_empty_and_max_heap :
  ∀ self (st : store) (value : Z),
    (contents (_arr self) st = [] →
     ∃ st' st'',
       push_pop self value st = Ok value st' ∧
       contents (_arr self) st' = [value] ∧
       (push self value;; pop self) st = Ok value st'' ∧
       contents (_arr self) st'' = []) ∧
    (_is_min_heap self = false →
     contents (_arr self) st ≠ [] →
     ∃ root st' st'',
       contents (_arr self) st !! 0%nat = Some root ∧
       push_pop self value st = Ok root st' ∧
       (let* r := pop self in push self value;; mret r) st = Ok root st'' ∧
       root :: contents (_arr self) st' ≡ₚ value :: contents (_arr self) st ∧
       contents (_arr self) st' ≡ₚ contents (_arr self) st'' ∧
       (heap_inv false (contents (_arr self) st) →
        heap_inv false (contents (_arr self) st') ∧
        heap_inv false (contents (_arr self) st''))).
Proof.
  intros self st v. split.
  - intros Hnil.
    destruct (push_pop_sound self st v) as (r & st' & Hrun & _ & _ & Hd).
    rewrite Hnil in Hd. destruct Hd as [-> Hst'].
    destruct (push_sound self st v) as (st1 & Hpush & _ & Hperm & _).
    rewrite Hnil in Hperm. apply Permutation_singleton_r in Hperm.
    destruct (pop_sound self st1 v [] Hperm) as (st'' & Hpop & _ & Hperm' & _).
    exists st', st''. split; [done|]. split; [done|].
    split; [by rewrite (then_Ok _ _ _ _ _ Hpush)|].
    by apply Permutation_nil_r.
  - intros Hb Hne.
    destruct (contents (_arr self) st) as [|root rest] eqn:Harr; [done|].
    destruct (push_pop_sound self st v) as (r & st' & Hrun & _ & Hinv & Hd).
    rewrite Harr, Hb in Hd, Hinv. simpl in Hd. destruct Hd as [-> Hperm].
    destruct (pop_sound self st root rest Harr)
      as (st1 & Hpop & _ & Hperm1 & Hinv1).
    destruct (push_sound self st1 v) as (st'' & Hpush & _ & Hperm2 & Hinv2).
    rewrite Hb in Hinv1, Hinv2.
    exists root, st', st''. split; [done|]. split; [done|]. split.
    { rewrite (bind_Ok _ _ _ _ _ Hpop). by rewrite (then_Ok _ _ _ _ _ Hpush). }
    split; [rewrite Hperm; apply perm_swap|].
    split; [by rewrite Hperm, Hperm2, Hperm1|].
    intros Hheap. split; [by apply Hinv|]. by apply Hinv2, Hinv1.
Qed.

Lemma push_pop_on_empty_and_max_heap_witness :
  let self := {| _arr := 0%nat; _is_min_heap := false |} in
  let st : store := {[ 0%nat := [10; 4; 7] ]} in
  ∃ root st' st'',
    contents 0%nat st !! 0%nat = Some root ∧
    push_pop self 20 st = Ok root st' ∧
    (let* r := pop self in push self 20;; mret r) st = Ok root st'' ∧
    root :: contents 0%nat st' ≡ₚ 20 :: contents 0%nat st ∧
    contents 0%nat st' ≡ₚ contents 0%nat st'' ∧
    (heap_inv false (contents 0%nat st) →
     heap_inv false (contents 0%nat st') ∧
     heap_inv false (contents 0%nat st'')).
Proof.
  refine (proj2 (push_pop_on_empty_and_max_heap
                   {| _arr := 0%nat; _is_min_heap := false |}
                   {[ 0%nat := [10; 4; 7] ]} 20) _ _).
  - reflexivity.
  - vm_compute. discriminate.
Defined.

(** X13.  On a non-empty min-heap [push_pop] is [push] followed by [pop]:
    both return the smaller of the value and the root, and both leave the
    same elements, in a heap. *)
Theorem push_pop_on_min_heap :
  ∀ self (st : store) (value : Z),
    _is_min_heap self = true →
    heap_inv true (contents (_arr self) st) →
    contents (_arr self) st ≠ [] →
    ∃ root r st1 st2,
      contents (_arr self) st !! 0%nat = Some root ∧
      r = Z.min value root ∧
      push_pop self value st = Ok r st1 ∧
      (push self value;; pop self) st = Ok r st2 ∧
      r :: contents (_arr self) st1 ≡ₚ value :: contents (_arr self) st ∧
      contents (_arr self) st1 ≡ₚ contents (_arr self) st2 ∧
      heap_inv true (contents (_arr self) st1) ∧
      heap_inv true (contents (_arr self) st2).
Proof.
  intros self st v Hb Hheap Hne.
  destruct (push_pop_min_heap_agrees self st v Hb Hheap Hne)
    as (r & st1 & st2 & Hrun1 & Hrun2 & Hperm & Hinv1 & Hinv2).
  destruct (contents (_arr self) st) as [|root rest] eqn:Harr; [done|].
  destruct (push_pop_sound self st v) as (r' & st1' & Hrun1' & _ & _ & Hd).
  rewrite Hrun1 in Hrun1'. injection Hrun1' as <- <-.
  rewrite Harr, Hb in Hd. unfold push_pop_test in Hd. simpl in Hd.
  exists root, r, st1, st2. split; [done|].
  assert (r = Z.min v root ∧ r :: contents (_arr self) st1 ≡ₚ v :: root :: rest)
    as [Hr Hp].
  { destruct (Z.gtb_spec v root); simpl in Hd.
    - destruct Hd as [-> Hp]. split; [lia|]. rewrite Hp. apply perm_swap.
    - destruct (Z.ltb_spec v root); simpl in Hd.
      + destruct Hd as [-> ->]. split; [lia|]. by rewrite Harr.
      + destruct Hd as [-> Hp]. split; [lia|]. rewrite Hp. apply perm_swap. }
  done.
Qed.

Lemma push_pop_on_min_heap_witness :
  let self := {| _arr := 0%nat; _is_min_heap := true |} in
  let st : store := {[ 0%nat := [1; 3; 8; 5] ]} in
  ∃ root r st1 st2,
    contents 0%nat st !! 0%nat = Some root ∧
    r = Z.min 2 root ∧
    push_pop self 2 st = Ok r st1 ∧
    (push self 2;; pop self) st = Ok r st2 ∧
    r :: contents 0%nat st1 ≡ₚ 2 :: contents 0%nat st ∧
    contents 0%nat st1 ≡ₚ contents 0%nat st2 ∧
    heap_inv true (contents 0%nat st1) ∧
    heap_inv true (contents 0%nat st2).
Proof.
  refine (push_pop_on_min_heap
            {| _arr := 0%nat; _is_min_heap := true |}
            {[ 0%nat := [1; 3; 8; 5] ]} 2 _ _ _).
  - reflexivity.
  - apply heap_invb_spec. reflexivity.
  - vm_compute. discriminate.
Defined.

(** X14.  Heap sort by insertion: pushing the values of a list one by one
    into a heap and then popping until the heap is empty yields the
    pushed values together with those the heap held, in priority order
    (non-decreasing for a min-heap, non-increasing for a max-heap). *)
Theorem push_all_then_pop_all_sorts :
  ∀ self (st : store) (xs : list Z),
    heap_inv (_is_min_heap self) (contents (_arr self) st) →
    ∃ ys st',
      (for_each xs (push self);; pop_all self) st = Ok ys st' ∧
      ys ≡ₚ xs ++ contents (_arr self) st ∧
      StronglySorted (order (_is_min_heap self)) ys ∧
      contents (_arr self) st' = [].
Proof.
  intros self st xs Hheap.
  destruct (push_all_sound self xs st) as (st1 & Hrun & Hperm & _ & Hinv).
  destruct (pop_all_sound self st1 (Hinv Hheap))
    as (ys & st' & Hrun' & _ & Hnil & Hperm' & Hsorted).
  exists ys, st'. split; [by rewrite (then_Ok _ _ _ _ _ Hrun)|].
  split; [by rewrite Hperm', Hperm|]. done.
Qed.

Lemma push_all_then_pop_all_sorts_witness :
  let self := {| _arr := 0%nat; _is_min_heap := true |} in
  let st : store := {[ 0%nat := [] ]} in
  ∃ ys st',
    (for_each [5; 3; 8] (push self);; pop_all self) st = Ok ys st' ∧
    ys ≡ₚ [5; 3; 8] ++ contents 0%nat st ∧
    StronglySorted (order true) ys ∧
    contents 0%nat st' = [].
Proof.
  refine (push_all_then_pop_all_sorts
            {| _arr := 0%nat; _is_min_heap := true |}
            {[ 0%nat := [] ]} [5; 3; 8] _).
  apply heap_invb_spec. reflexivity.
Defined.

(** X15.  Two uses of [replace] on a heap that holds [oldValue].
    Replacing a value by one that has strict priority over the root brings
    the new value to the root.  Replacing a value by itself leaves the
    store exactly as it was. *)
Theorem replace_to_the_root_and_by_itself :
  ∀ self (st : store) (oldValue newValue root : Z),
    heap_inv (_is_min_heap self) (contents (_arr self) st) →
    oldValue ∈ contents (_arr self) st →
    contents (_arr self) st !! 0%nat = Some root →
    (prior (_is_min_heap self) newValue root = true →
     ∃ st', replace self oldValue newValue st = Ok tt st' ∧
            contents (_arr self) st' !! 0%nat = Some newValue) ∧
    replace self oldValue oldValue st = Ok tt st.
Proof.
  intros self st old new root Hheap Hin Hroot.
  destruct (find_index old (contents (_arr self) st)) as [k|] eqn:Hfind;
    [|by apply find_index_None in Hfind].
  destruct (find_index_Some _ _ _ Hfind) as [Hk _].
  split.
  - intros Hprior.
    destruct (replace_sound self st old new k Hfind)
      as (st' & Hrun & _ & Hperm & Hinv).
    specialize (Hinv Hheap). exists st'. split; [done|].
    destruct (contents (_arr self) st') as [|r' rest'] eqn:Harr'.
    { apply Permutation_length in Hperm. rewrite length_insert in Hperm.
      apply lookup_lt_Some in Hk. simpl in Hperm. lia. }
    simpl. f_equal.
    assert (new ∈ r' :: rest') as Hnew.
    { rewrite Hperm. apply list_elem_of_insert. by eapply lookup_lt_Some. }
    pose proof (heap_root_elem _ r' rest' new Hinv Hnew) as Hle.
    assert (r' ∈ <[k := new]> (contents (_arr self) st)) as Hr'
      by (rewrite <- Hperm; apply list_elem_of_here).
    apply elem_of_insert_inv in Hr' as [->|Hr']; [done|].
    apply list_elem_of_lookup in Hr' as [j Hj].
    pose proof (heap_root _ _ root Hheap Hroot j r' Hj) as Hroot'.
    apply prior_true in Hprior as [Ho Hd]. exfalso. apply Hd.
    apply (order_antisym (_is_min_heap self)); [done|].
    by eapply order_trans.
  - pose proof (lookup_lt_Some _ _ _ Hk) as Hlt.
    assert (is_Some (st !! _arr self)) as [arr Harr].
    { unfold contents in Hlt. destruct (st !! _arr self); [eauto|].
      simpl in Hlt. lia. }
    assert (<[_arr self := <[k := old]> (contents (_arr self) st)]> st = st)
      as Hsame.
    { rewrite list_insert_id by done. apply insert_id.
      by rewrite (contents_lookup _ _ _ Harr). }
    unfold replace. erewrite bind_Ok by apply is_empty_eval.
    rewrite bool_decide_eq_false_2
      by (destruct (contents (_arr self) st); [done|discriminate]).
    erewrite bind_Ok; last first.
    { unfold try_except_ValueError, list_index. by rewrite Hfind. }
    erewrite then_Ok by (by apply setitem_nat). rewrite Hsame.
    rewrite gtb_nat. unfold and_then.
    assert (bind (size self) (λ n, heapify_down self (Z.of_nat k) n) st
            = Ok tt st) as Hdown.
    { unfold size. erewrite bind_Ok by apply len_eval.
      apply heapify_down_stays; [lia|].
      intros c xi xc Hc _ Hxi Hxc. by apply (Hheap k c). }
    destruct (decide (0 < k)%nat) as [Hpos|Hpos].
    + rewrite (bool_decide_eq_true_2 _ Hpos), parent_nat by done.
      pose proof (up_lt k Hpos).
      destruct (lookup_lt_is_Some_2 (contents (_arr self) st) (up k))
        as [xp Hxp]; [lia|].
      rewrite (bind_Ok _ _ _ _ _ (compare_nat self st _ _ _ _ Hk Hxp)).
      assert (prior (_is_min_heap self) old xp = false) as ->; [|done].
      pose proof (heap_inv_edge _ _ k xp old Hheap Hpos Hxp Hk) as Ho.
      unfold prior, order in *. destruct (_is_min_heap self); lia.
    + rewrite (bool_decide_eq_false_2 _ Hpos).
      by erewrite bind_Ok by reflexivity.
Qed.

Lemma replace_to_the_root_and_by_itself_witness :
  let self := {| _arr := 0%nat; _is_min_heap := true |} in
  let st : store := {[ 0%nat := [1; 3; 8; 5] ]} in
  (prior true 0 1 = true →
   ∃ st', replace self 8 0 st = Ok tt st' ∧
          contents 0%nat st' !! 0%nat = Some 0) ∧
  replace self 8 8 st = Ok tt st.
Proof.
  refine (replace_to_the_root_and_by_itself
            {| _arr := 0%nat; _is_min_heap := true |}
            {[ 0%nat := [1; 3; 8; 5] ]} 8 0 1 _ _ _).
  - apply heap_invb_spec. reflexivity.
  - vm_compute. apply list_elem_of_In. simpl. tauto.
  - reflexivity.
Defined.

(** ** What the heap prints *)



















